(** * brunch: the file list (scheduler) and the source file (compiled artifact)

    A shallow embedding of [lib/fs_utils/file_list.js] and
    [lib/fs_utils/source_file.js].

    - JavaScript strings are [string]s, array indices and string positions are
      [Z] (they can be [-1]), arrays are [list]s, [Set]s of paths are
      [gset string], the [compiled] object used as a map is a
      [gmap string bool] (keys inherited from [Object.prototype] are outside
      the model).
    - Objects that are shared and mutated (the [SourceFile] and [Asset]
      records held by the list, by closures and by pending promises) live in
      a store indexed by locations; the lists hold locations.
    - A statement that can throw evaluates to a [completion]; the state
      reached when the exception is raised is kept.
    - Promises, timers and the callbacks of the file cache are explicit
      pending work in the state; the event loop runs one of them per step. *)

From Stdlib Require Import ZArith Lia String Ascii.
From stdpp Require Import base gmap sets list strings.

Local Open Scope Z_scope.

(** ** JavaScript primitives used by the two files *)
Module Js.

(** Exceptions (and rejection reasons). *)
Inductive exn :=
| TypeError (message : string)
| SyntaxError (message : string)
| RangeError (message : string)
| PlainError (message : string).

(** The result of evaluating a statement or a call. *)
Inductive completion (A : Type) :=
| Normal (a : A)
| Throw (e : exn).
Arguments Normal {A} a.
Arguments Throw {A} e.

(** How a promise settles. *)
Inductive settled (A : Type) :=
| Fulfilled (v : A)
| Rejected (e : exn).
Arguments Fulfilled {A} v.
Arguments Rejected {A} e.

Definition strlen (s : string) : Z := Z.of_nat (String.length s).

Fixpoint str_take (n : nat) (s : string) : string :=
  match n, s with
  | S n', String a s' => String a (str_take n' s')
  | _, _ => ""
  end.

Fixpoint str_drop (n : nat) (s : string) : string :=
  match n, s with
  | S n', String _ s' => str_drop n' s'
  | _, _ => s
  end.

(** A string is truthy unless it is empty. *)
Definition truthy_string (s : string) : bool :=
  match s with "" => false | _ => true end.

(** [String.prototype.indexOf(needle)], searching from position [i] of the
    original string, of which [hay] is what remains. *)
Fixpoint indexOf_from (i : Z) (hay needle : string) : Z :=
  if String.prefix needle hay then i
  else match hay with
       | "" => -1
       | String _ hay' => indexOf_from (i + 1) hay' needle
       end.

Definition indexOf (hay needle : string) : Z := indexOf_from 0 hay needle.

(** A relative index of [slice]: negative counts from the end, and the
    result is clamped to [0 .. len]. *)
Definition relative_index (len i : Z) : Z :=
  if i <? 0 then Z.max (len + i) 0 else Z.min i len.

(** [String.prototype.slice(start, end)]. *)
Definition slice (s : string) (start stop : Z) : string :=
  let len := strlen s in
  let from := relative_index len start in
  let to := relative_index len stop in
  str_take (Z.to_nat (Z.max (to - from) 0)) (str_drop (Z.to_nat from) s).

(** [String.prototype.slice(start)]: up to the end of the string. *)
Definition slice_from (s : string) (start : Z) : string :=
  slice s start (strlen s).

(** [startsWith] of file_list.js: [string.lastIndexOf(substring, 0) === 0].
    A search backwards from position 0 can only find the substring at 0. *)
Definition startsWith (s substring : string) : bool :=
  String.prefix substring s.

(** [Array.prototype.indexOf] with the equality test of the caller. *)
Fixpoint array_indexOf_from {A B : Type} (eqb : A -> B -> bool)
    (i : Z) (l : list A) (x : B) : Z :=
  match l with
  | [] => -1
  | y :: l' => if eqb y x then i else array_indexOf_from eqb (i + 1) l' x
  end.

Definition array_indexOf {A B : Type} (eqb : A -> B -> bool)
    (l : list A) (x : B) : Z :=
  array_indexOf_from eqb 0 l x.

(** [Array.prototype.splice(start, deleteCount)] with no inserted items:
    the array that is left. *)
Definition splice {A : Type} (l : list A) (start deleteCount : Z) : list A :=
  let len := Z.of_nat (length l) in
  let from := relative_index len start in
  let count := Z.min (Z.max deleteCount 0) (len - from) in
  take (Z.to_nat from) l ++ drop (Z.to_nat (from + count)) l.

(** [Array.prototype.some] over a test that may not return: it stops at the
    first element for which the test holds. *)
Fixpoint some {A : Type} (test : A -> option bool) (l : list A) : option bool :=
  match l with
  | [] => Some false
  | x :: l' =>
      match test x with
      | None => None
      | Some true => Some true
      | Some false => some test l'
      end
  end.

(** Statements that read and write a state [S] and may throw. *)
Definition M (S A : Type) : Type := S -> completion A * S.

#[global] Instance M_ret {S} : MRet (M S) := fun A a s => (Normal a, s).

#[global] Instance M_bind {S} : MBind (M S) := fun A B f m s =>
  match m s with
  | (Normal a, s') => f a s'
  | (Throw e, s') => (Throw e, s')
  end.

Definition get {S} : M S S := fun s => (Normal s, s).
Definition gets {S A} (f : S -> A) : M S A := fun s => (Normal (f s), s).
Definition modify {S} (f : S -> S) : M S unit := fun s => (Normal tt, f s).
Definition throw {S A} (e : exn) : M S A := fun s => (Throw e, s).

(** The property names a plain object ([{}]) inherits from
    [Object.prototype]. Their values are functions, and the prototype itself
    for [__proto__]: all of them truthy. *)
Definition Object_prototype : list string :=
  ["constructor"; "__defineGetter__"; "__defineSetter__"; "hasOwnProperty";
   "__lookupGetter__"; "__lookupSetter__"; "isPrototypeOf";
   "propertyIsEnumerable"; "toString"; "toLocaleString"; "valueOf";
   "__proto__"].

(** [object[key]] as a truth value, for a plain object that was assigned
    the keys of [own]: a key it was not assigned is looked up on
    [Object.prototype]. (An assignment to [__proto__] with a value that is
    not an object adds no property; the key reads as the prototype either
    way.) *)
Definition get_truthy (own : gmap string bool) (key : string) : bool :=
  match own !! key with
  | Some b => b
  | None => bool_decide (key ∈ Object_prototype)
  end.

(** [l.forEach(f)] *)
Fixpoint forEach {S A} (f : A -> M S unit) (l : list A) : M S unit :=
  match l with
  | [] => mret tt
  | x :: l' => f x ;; forEach f l'
  end.

End Js.

Import Js.

(** ** The [source-map] library, as far as the source file uses it

    A source node is the text chunks it renders, in order, and the source
    contents attached to it; the position mappings are not modelled. *)
Module SourceNode.

(** A raw source map (the object form, or a parsed string form). *)
Record RawSourceMap := {
  sources : option (list string);
  sourcesContent : list (string * string);
  mappings : string;
}.

Record t := {
  children : list string;
  sourceContents : gmap string string;
  (** [node.isIdentity], a property brunch adds ([None]: not set) *)
  isIdentity : option bool;
  (** [node.source] *)
  source : option string;
}.

(** [node.toString()] *)
Definition toString (n : t) : string :=
  foldr String.append "" (children n).

(** [node.prepend(chunk)] *)
Definition prepend (chunk : string) (n : t) : t :=
  {| children := chunk :: children n; sourceContents := sourceContents n;
     isIdentity := isIdentity n; source := source n |}.

(** [node.add(chunk)] *)
Definition add (chunk : string) (n : t) : t :=
  {| children := children n ++ [chunk]; sourceContents := sourceContents n;
     isIdentity := isIdentity n; source := source n |}.

(** [node.setSourceContent(path, content)] *)
Definition setSourceContent (path content : string) (n : t) : t :=
  {| children := children n;
     sourceContents := <[path := content]> (sourceContents n);
     isIdentity := isIdentity n; source := source n |}.

Definition set_isIdentity (b : bool) (n : t) : t :=
  {| children := children n; sourceContents := sourceContents n;
     isIdentity := Some b; source := source n |}.

Definition set_source (path : string) (n : t) : t :=
  {| children := children n; sourceContents := sourceContents n;
     isIdentity := isIdentity n; source := Some path |}.

(** [SourceNode.fromStringWithSourceMap(code, new SourceMapConsumer(map))]:
    the node renders [code] and carries the contents the map embeds. *)
Definition fromStringWithSourceMap (code : string) (map : RawSourceMap) : t :=
  {| children := [code];
     sourceContents := list_to_map (sourcesContent map);
     isIdentity := None; source := None |}.

End SourceNode.

(** ** Collaborators that are not part of the two files

    [deppack], Node's [path.normalize], [JSON.parse] and the helpers
    [isWindows] and [replaceBackSlashes]. *)
Class Externals := {
  (** [deppack.isNpm]: the path is in the package-dependency namespace. *)
  isNpm : string -> bool;
  (** [deppack.isNpmJSON] *)
  isNpmJSON : string -> bool;
  (** [require('path').normalize] *)
  normalize : string -> string;
  (** [helpers.isWindows] *)
  isWindows : bool;
  (** [helpers.replaceBackSlashes] *)
  replaceBackSlashes : string -> string;
  (** [JSON.parse] of a source map, [None] when it throws *)
  JSON_parse : string -> option SourceNode.RawSourceMap;
  (** [helpers.formatError] *)
  formatError : string -> exn -> string;
}.

(** ** source_file.js *)
Module SourceFile.

Import SourceNode.

(** Modelled from the spec: [helpers.identityNode] is not among the source
    files. The spec has it build an identity source-tracking node (one-to-one
    line mapping) directly from the text it is given, so the node renders that
    text. *)
Definition identityNode (code path : string) : SourceNode.t :=
  {| children := [code]; sourceContents := ∅;
     isIdentity := None; source := None |}.

(** What the module wrapper returns: a string, or an object with [prefix],
    [suffix] and [data]. *)
Inductive Wrapped :=
| WString (s : string)
| WObject (prefix suffix data : option string).

(** The source map of a pipeline result: a string (JSON) or an object. *)
Inductive SourceMap :=
| MapString (json : string)
| MapObject (map : RawSourceMap).

(** [sMapRe]: [/^\)\]\}'/], and [sourceMap.replace(sMapRe, '')]. *)
Definition sMapRe_prefix : string := ")]}'".

Definition strip_sMapRe (s : string) : string :=
  if String.prefix sMapRe_prefix s then str_drop 4 s else s.

(** Truthiness of an optional string ([undefined] and [''] are falsy). *)
Definition truthy_opt (o : option string) : bool :=
  match o with Some s => truthy_string s | None => false end.

(** Truthiness of the [sourceMap] argument. *)
Definition truthy_map (o : option SourceMap) : bool :=
  match o with
  | None => false
  | Some (MapString s) => truthy_string s
  | Some (MapObject _) => true
  end.

(** What [updateMap] has when it returns its promise: the node, and the
    paths whose contents are being read ([Promise.all(sources.map(addSource))]).
    The promise resolves with the node once every read has resolved, and a
    resolved read attaches its content to the node. *)
Record MapJob := {
  job_node : SourceNode.t;
  job_reads : list string;
}.

Section UpdateMap.
Context `{Externals}.

Definition map_sources_windows (m : RawSourceMap) : RawSourceMap :=
  match sources m with
  | Some srcs =>
      if isWindows
      then {| sources := Some (replaceBackSlashes <$> srcs);
              sourcesContent := sourcesContent m; mappings := mappings m |}
      else m
  | None => m
  end.

Definition updateMap (path compiled : string) (wrapped : Wrapped)
    (sourceMap : option SourceMap) : completion MapJob :=
  let '(prefix, suffix, wrapperContent) :=
    match wrapped with
    | WObject prefix suffix data =>
        (prefix, suffix, if truthy_opt data then default "" data else compiled)
    | WString wrapped =>
        let sourcePos := indexOf wrapped compiled in
        (Some (slice wrapped 0 sourcePos),
         Some (slice_from wrapped (sourcePos + strlen compiled)),
         if 0 <? sourcePos then compiled else wrapped)
    end in
  let built : completion (SourceNode.t * option SourceMap) :=
    if truthy_map sourceMap then
      match sourceMap with
      | Some (MapString json) =>
          match JSON_parse (strip_sMapRe json) with
          | Some mapping =>
              Normal (fromStringWithSourceMap wrapperContent
                        (map_sources_windows mapping), sourceMap)
          | None => Throw (SyntaxError "JSON.parse")
          end
      | Some (MapObject mapping) =>
          (* [mapping] is the object itself: its [sources] are replaced
             in place *)
          let mapping := map_sources_windows mapping in
          Normal (fromStringWithSourceMap wrapperContent mapping,
                  Some (MapObject mapping))
      | None => Normal (identityNode wrapperContent path, sourceMap)
      end
    else Normal (identityNode wrapperContent path, sourceMap) in
  match built with
  | Throw e => Throw e
  | Normal (node, sourceMap) =>
      let node := set_isIdentity
                    (match sourceMap with None => true | Some _ => false end)
                    node in
      let node := if truthy_opt prefix
                  then SourceNode.prepend (default "" prefix) node else node in
      let node := if truthy_opt suffix
                  then SourceNode.add (default "" suffix) node else node in
      let node := set_source path node in
      let node := setSourceContent path wrapperContent node in
      (* [sourceMap && sourceMap.sources || []]: a string has no [sources] *)
      let sources :=
        match sourceMap with
        | Some (MapObject m) => default [] (SourceNode.sources m)
        | _ => []
        end in
      Normal {| job_node := node; job_reads := sources |}
  end.

(** [addSource]'s continuation: a read that resolved with [content]. *)
Definition addSource (path content : string) (node : SourceNode.t)
  : SourceNode.t :=
  setSourceContent path content node.

(** The promise [updateMap] returns, once the reads have settled in the
    order [order] with the contents [readFile] gives ([None]: the read is
    rejected): the node with every content attached, or a rejection. *)
Fixpoint settle_reads (readFile : string -> option string)
    (order : list string) (node : SourceNode.t) : option SourceNode.t :=
  match order with
  | [] => Some node
  | p :: rest =>
      match readFile p with
      | Some content => settle_reads readFile rest (addSource p content node)
      | None => None
      end
  end.

End UpdateMap.

(** A compiler or linter plugin; only its [type] is read here. *)
Record Plugin := { plugin_type : option string }.

(** What the closures [compile] and [wrap] of a record captured when it was
    constructed. *)
Record Closure := {
  c_path : string;
  c_linters : list Plugin;
  c_compilers : option (list Plugin);
  c_wrapper : string -> string -> bool -> Wrapped;
  c_isWrapped : bool;
  c_isntModule : bool;
}.

(** A [SourceFile] object. [frozen] is the object's own state
    ([Object.freeze]), not a property. *)
Record t := {
  path : string;
  type : option string;
  source : string;
  data : option string;
  node : option SourceNode.t;
  dependencies : option (list string);
  compilationTime : option Z;
  error : option exn;
  isHelper : bool;
  removed : bool;
  disposed : bool;
  compile : Closure;
  frozen : bool;
}.

Definition set_path v (f : t) : t :=
  {| path := v; type := type f; source := source f; data := data f;
     node := node f; dependencies := dependencies f;
     compilationTime := compilationTime f; error := error f;
     isHelper := isHelper f; removed := removed f; disposed := disposed f;
     compile := compile f; frozen := frozen f |}.
Definition set_source v (f : t) : t :=
  {| path := path f; type := type f; source := v; data := data f;
     node := node f; dependencies := dependencies f;
     compilationTime := compilationTime f; error := error f;
     isHelper := isHelper f; removed := removed f; disposed := disposed f;
     compile := compile f; frozen := frozen f |}.
Definition set_data v (f : t) : t :=
  {| path := path f; type := type f; source := source f; data := v;
     node := node f; dependencies := dependencies f;
     compilationTime := compilationTime f; error := error f;
     isHelper := isHelper f; removed := removed f; disposed := disposed f;
     compile := compile f; frozen := frozen f |}.
Definition set_node v (f : t) : t :=
  {| path := path f; type := type f; source := source f; data := data f;
     node := v; dependencies := dependencies f;
     compilationTime := compilationTime f; error := error f;
     isHelper := isHelper f; removed := removed f; disposed := disposed f;
     compile := compile f; frozen := frozen f |}.
Definition set_dependencies v (f : t) : t :=
  {| path := path f; type := type f; source := source f; data := data f;
     node := node f; dependencies := v;
     compilationTime := compilationTime f; error := error f;
     isHelper := isHelper f; removed := removed f; disposed := disposed f;
     compile := compile f; frozen := frozen f |}.
Definition set_compilationTime v (f : t) : t :=
  {| path := path f; type := type f; source := source f; data := data f;
     node := node f; dependencies := dependencies f;
     compilationTime := v; error := error f;
     isHelper := isHelper f; removed := removed f; disposed := disposed f;
     compile := compile f; frozen := frozen f |}.
Definition set_error v (f : t) : t :=
  {| path := path f; type := type f; source := source f; data := data f;
     node := node f; dependencies := dependencies f;
     compilationTime := compilationTime f; error := v;
     isHelper := isHelper f; removed := removed f; disposed := disposed f;
     compile := compile f; frozen := frozen f |}.
Definition set_removed v (f : t) : t :=
  {| path := path f; type := type f; source := source f; data := data f;
     node := node f; dependencies := dependencies f;
     compilationTime := compilationTime f; error := error f;
     isHelper := isHelper f; removed := v; disposed := disposed f;
     compile := compile f; frozen := frozen f |}.
Definition set_disposed v (f : t) : t :=
  {| path := path f; type := type f; source := source f; data := data f;
     node := node f; dependencies := dependencies f;
     compilationTime := compilationTime f; error := error f;
     isHelper := isHelper f; removed := removed f; disposed := v;
     compile := compile f; frozen := frozen f |}.
Definition freeze (f : t) : t :=
  {| path := path f; type := type f; source := source f; data := data f;
     node := node f; dependencies := dependencies f;
     compilationTime := compilationTime f; error := error f;
     isHelper := isHelper f; removed := removed f; disposed := disposed f;
     compile := compile f; frozen := true |}.

(** An assignment to a property of the record. Both files are in strict
    mode: on a frozen object it throws a [TypeError]. *)
Definition assign (set : t -> t) : M t unit := fun cache =>
  if frozen cache
  then (Throw (TypeError "Cannot assign to read only property"), cache)
  else (Normal tt, set cache).

(** What the pipeline resolves with (or [null]). *)
Record PipelineResult := {
  pr_source : string;
  pr_compiled : string;
  pr_dependencies : option (list string);
  pr_sourceMap : option SourceMap;
}.

(** What [updateCache] returns: the record, or nothing after it started
    [updateMap], whose promise will store the node. *)
Inductive Returned :=
| ReturnsCache
| ReturnsUndefined (job : MapJob).

Section Compile.
Context `{Externals}.

(** [updateCache(path, cache, error, result, wrap)] at time [now]
    ([Date.now()]); the state is the record [cache]. *)
Definition updateCache (now : Z) (path : string) (error : option exn)
    (result : option PipelineResult) (wrap : string -> Wrapped)
  : M t Returned :=
  match error with
  | Some e =>
      assign (set_error (Some e));;
      mret ReturnsCache
  | None =>
      match result with
      | None =>
          assign (set_error None);;
          assign (set_data None);;
          assign (set_compilationTime (Some now));;
          mret ReturnsCache
      | Some result =>
          let source := pr_source result in
          let compiled := pr_compiled result in
          let wrapped := wrap compiled in
          assign (set_error None);;
          assign (set_dependencies (pr_dependencies result));;
          assign (set_source source);;
          assign (set_compilationTime (Some now));;
          assign (set_data (Some compiled));;
          match updateMap path compiled wrapped (pr_sourceMap result) with
          | Normal job => mret (ReturnsUndefined job)
          | Throw e => throw e
          end
      end
  end.

(** The continuation of [updateMap]'s promise in [updateCache]:
    [cache.node = node]. *)
Definition store_node (n : SourceNode.t) : M t unit :=
  assign (set_node (Some n)).

(** [makeWrapper(wrapper, path, isWrapped, isntModule)] *)
Definition makeWrapper (c : Closure) (node : string) : Wrapped :=
  if c_isWrapped c then c_wrapper c (c_path c) node (c_isntModule c)
  else WString node.

(** The two continuations [makeCompiler] attaches to the pipeline's
    promise, run when it settles: the record is updated, and then [.then] is
    called on what [updateCache] returned. That is the record, which has no
    [then] method, or [undefined]: the call throws, so the promise of
    [compile()] is rejected on every path. The result is how that promise
    settles and the [updateMap] job that was started, if any. *)
Definition compile_settled (now : Z) (c : Closure)
    (outcome : settled (option PipelineResult)) (cache : t)
  : settled unit * option MapJob * t :=
  let normalizedPath := replaceBackSlashes (c_path c) in
  let '(r, cache') :=
    match outcome with
    | Fulfilled data =>
        updateCache now normalizedPath None data (makeWrapper c) cache
    | Rejected error =>
        updateCache now normalizedPath (Some error) None (makeWrapper c) cache
    end in
  match r with
  | Throw e => (Rejected e, None, cache')
  | Normal ReturnsCache =>
      (Rejected (TypeError "updateCache(...).then is not a function"),
       None, cache')
  | Normal (ReturnsUndefined job) =>
      (Rejected (TypeError "Cannot read property 'then' of undefined"),
       Some job, cache')
  end.

(** [new SourceFile(path, compilers, linters, wrapper, isHelper, isVendor,
    fileList)] *)
Definition new (path : string) (compilers : option (list Plugin))
    (linters : list Plugin) (wrapper : string -> string -> bool -> Wrapped)
    (isHelper isVendor : bool) : t :=
  let first := compilers ≫= head in
  let first_type := first ≫= plugin_type in
  let type := if truthy_opt first_type then first_type
              else if isNpmJSON path then Some "javascript" else None in
  let isntModule := isHelper || isVendor in
  let isWrapped := bool_decide (type = Some "javascript")
                   || bool_decide (type = Some "template") in
  {| path := path; type := type; source := ""; data := Some "";
     node := None; dependencies := Some []; compilationTime := None;
     error := None; isHelper := isHelper; removed := false;
     disposed := false;
     compile := {| c_path := path; c_linters := linters;
                   c_compilers := compilers; c_wrapper := wrapper;
                   c_isWrapped := isWrapped; c_isntModule := isntModule |};
     frozen := false |}.

(** [dispose()] *)
Definition dispose : M t unit :=
  assign (set_path "");;
  assign (set_data (Some ""));;
  assign (set_dependencies (Some []));;
  assign (set_disposed true);;
  assign (set_node None);;
  assign (set_error None);;
  modify freeze.

End Compile.

End SourceFile.

(** ** file_list.js *)
Module FileList.

Import SourceFile.

(** Object identities. *)
Definition loc := nat.

(** An ignore rule, or an entry of the conventions table: the kinds of value
    that [isIgnored] and [is] tell apart. A regular expression is what
    [path.match] answers, a function is what it answers, as a truth value. *)
#[warnings="-register-all"]
Inductive rule :=
| RRegExp (matches : string -> bool)
| RFunction (f : string -> bool)
| RString (s : string)
| RArray (l : list rule)
| ROther (truthy : bool).

(** [undefined], as an argument that is not given. *)
Definition undefined : rule := ROther false.

(** Truthiness: of these values only the empty string, and [undefined],
    [null], [0], [NaN] and [false] among the others, are falsy. *)
Definition truthy (r : rule) : bool :=
  match r with
  | RString s => truthy_string s
  | ROther b => b
  | _ => true
  end.

(** What the constructor reads from the configuration. *)
Record Config := {
  fileListInterval : option Z;
  publicPath : string;
  (** [norm.conventions] *)
  conventions : gmap string rule;
  (** [norm.modules.wrapper] *)
  moduleWrapper : string -> string -> bool -> Wrapped;
  (** [norm.paths.allConfigFiles] *)
  configPaths : list string;
}.

Definition defaultInterval : Z := 65.

(** [this.resetTime] *)
Definition resetTime (cfg : Config) : Z :=
  match fileListInterval cfg with
  | Some interval => if interval =? 0 then defaultInterval else interval
  | None => defaultInterval
  end.

(** Modelled from the spec: [Asset] ([./asset]) is not among the source
    files. The spec gives an asset record a [path], a copy operation and an
    optional [error]. *)
Record Asset := {
  asset_path : string;
  asset_error : option exn;
}.

(** Values an array is searched for: [===] holds between two strings that
    are equal and between an object and itself. *)
Inductive value :=
| VString (s : string)
| VObject (l : loc).

Definition strict_equals (a b : value) : bool :=
  match a, b with
  | VString s, VString s' => String.eqb s s'
  | VObject l, VObject l' => Nat.eqb l l'
  | _, _ => false
  end.

(** What the callback given to [fcache.updateCache] by [_change] captured. *)
Record Read := {
  read_path : string;
  read_compiler : option (list Plugin);
  read_linters : list Plugin;
  read_isHelper : bool;
  read_ignored : bool;
}.

(** What the list does to the outside. *)
Inductive effect :=
| Debug (line : string)
| Emit (event : string) (argument : option string)
| CallPipeline (file : loc) (path : string)
| CallCopy (asset : loc)
| CallUpdateCache (path : string).

Record World := {
  (** [this.files]: the source-file records, in order *)
  files : list loc;
  (** [this.assets]: the asset records, in order *)
  assets : list loc;
  (** [this.compiling] *)
  compiling : gset string;
  (** [this.copying] *)
  copying : gset string;
  (** [this.compiled]: the keys assigned to the plain object *)
  compiled : gmap string bool;
  (** [this.initial] *)
  initial : bool;
  (** [this.timer]: the handle of the last timeout set *)
  timer : option nat;
  (** the [SourceFile] objects *)
  heap : gmap loc SourceFile.t;
  (** the [Asset] objects *)
  asset_heap : gmap loc Asset;
  (** timeouts that are set and have neither fired nor been cleared *)
  timeouts : gset nat;
  (** the number of timeouts set so far (the next handle) *)
  timer_count : nat;
  (** pending promises of [file.compile()]: the record, and the [path] that [reset] captured *)
  inflight : list (loc * string);
  (** pending promises of [asset.copy()] *)
  copies : list (loc * string);
  (** pending callbacks of [fcache.updateCache] *)
  reads : list Read;
  (** pending promises of [updateMap]: the record whose node they will store *)
  jobs : list (loc * SourceFile.MapJob);
  (** what the list did to the outside, newest first *)
  trace : list effect;
}.

Definition set_files (v : list loc) (w : World) : World :=
  {| files := v; assets := assets w; compiling := compiling w;
     copying := copying w; compiled := compiled w; initial := initial w;
     timer := timer w; heap := heap w; asset_heap := asset_heap w;
     timeouts := timeouts w; timer_count := timer_count w;
     inflight := inflight w; copies := copies w; reads := reads w;
     jobs := jobs w; trace := trace w |}.
Definition set_assets (v : list loc) (w : World) : World :=
  {| files := files w; assets := v; compiling := compiling w;
     copying := copying w; compiled := compiled w; initial := initial w;
     timer := timer w; heap := heap w; asset_heap := asset_heap w;
     timeouts := timeouts w; timer_count := timer_count w;
     inflight := inflight w; copies := copies w; reads := reads w;
     jobs := jobs w; trace := trace w |}.
Definition set_compiling (v : gset string) (w : World) : World :=
  {| files := files w; assets := assets w; compiling := v;
     copying := copying w; compiled := compiled w; initial := initial w;
     timer := timer w; heap := heap w; asset_heap := asset_heap w;
     timeouts := timeouts w; timer_count := timer_count w;
     inflight := inflight w; copies := copies w; reads := reads w;
     jobs := jobs w; trace := trace w |}.
Definition set_copying (v : gset string) (w : World) : World :=
  {| files := files w; assets := assets w; compiling := compiling w;
     copying := v; compiled := compiled w; initial := initial w;
     timer := timer w; heap := heap w; asset_heap := asset_heap w;
     timeouts := timeouts w; timer_count := timer_count w;
     inflight := inflight w; copies := copies w; reads := reads w;
     jobs := jobs w; trace := trace w |}.
Definition set_compiled (v : gmap string bool) (w : World) : World :=
  {| files := files w; assets := assets w; compiling := compiling w;
     copying := copying w; compiled := v; initial := initial w;
     timer := timer w; heap := heap w; asset_heap := asset_heap w;
     timeouts := timeouts w; timer_count := timer_count w;
     inflight := inflight w; copies := copies w; reads := reads w;
     jobs := jobs w; trace := trace w |}.
Definition set_initial (v : bool) (w : World) : World :=
  {| files := files w; assets := assets w; compiling := compiling w;
     copying := copying w; compiled := compiled w; initial := v;
     timer := timer w; heap := heap w; asset_heap := asset_heap w;
     timeouts := timeouts w; timer_count := timer_count w;
     inflight := inflight w; copies := copies w; reads := reads w;
     jobs := jobs w; trace := trace w |}.
Definition set_timer (v : option nat) (w : World) : World :=
  {| files := files w; assets := assets w; compiling := compiling w;
     copying := copying w; compiled := compiled w; initial := initial w;
     timer := v; heap := heap w; asset_heap := asset_heap w;
     timeouts := timeouts w; timer_count := timer_count w;
     inflight := inflight w; copies := copies w; reads := reads w;
     jobs := jobs w; trace := trace w |}.
Definition set_heap (v : gmap loc SourceFile.t) (w : World) : World :=
  {| files := files w; assets := assets w; compiling := compiling w;
     copying := copying w; compiled := compiled w; initial := initial w;
     timer := timer w; heap := v; asset_heap := asset_heap w;
     timeouts := timeouts w; timer_count := timer_count w;
     inflight := inflight w; copies := copies w; reads := reads w;
     jobs := jobs w; trace := trace w |}.
Definition set_asset_heap (v : gmap loc Asset) (w : World) : World :=
  {| files := files w; assets := assets w; compiling := compiling w;
     copying := copying w; compiled := compiled w; initial := initial w;
     timer := timer w; heap := heap w; asset_heap := v;
     timeouts := timeouts w; timer_count := timer_count w;
     inflight := inflight w; copies := copies w; reads := reads w;
     jobs := jobs w; trace := trace w |}.
Definition set_timeouts (v : gset nat) (w : World) : World :=
  {| files := files w; assets := assets w; compiling := compiling w;
     copying := copying w; compiled := compiled w; initial := initial w;
     timer := timer w; heap := heap w; asset_heap := asset_heap w;
     timeouts := v; timer_count := timer_count w; inflight := inflight w;
     copies := copies w; reads := reads w; jobs := jobs w;
     trace := trace w |}.
Definition set_timer_count (v : nat) (w : World) : World :=
  {| files := files w; assets := assets w; compiling := compiling w;
     copying := copying w; compiled := compiled w; initial := initial w;
     timer := timer w; heap := heap w; asset_heap := asset_heap w;
     timeouts := timeouts w; timer_count := v; inflight := inflight w;
     copies := copies w; reads := reads w; jobs := jobs w;
     trace := trace w |}.
Definition set_inflight (v : list (loc * string)) (w : World) : World :=
  {| files := files w; assets := assets w; compiling := compiling w;
     copying := copying w; compiled := compiled w; initial := initial w;
     timer := timer w; heap := heap w; asset_heap := asset_heap w;
     timeouts := timeouts w; timer_count := timer_count w; inflight := v;
     copies := copies w; reads := reads w; jobs := jobs w;
     trace := trace w |}.
Definition set_copies (v : list (loc * string)) (w : World) : World :=
  {| files := files w; assets := assets w; compiling := compiling w;
     copying := copying w; compiled := compiled w; initial := initial w;
     timer := timer w; heap := heap w; asset_heap := asset_heap w;
     timeouts := timeouts w; timer_count := timer_count w;
     inflight := inflight w; copies := v; reads := reads w; jobs := jobs w;
     trace := trace w |}.
Definition set_reads (v : list Read) (w : World) : World :=
  {| files := files w; assets := assets w; compiling := compiling w;
     copying := copying w; compiled := compiled w; initial := initial w;
     timer := timer w; heap := heap w; asset_heap := asset_heap w;
     timeouts := timeouts w; timer_count := timer_count w;
     inflight := inflight w; copies := copies w; reads := v; jobs := jobs w;
     trace := trace w |}.
Definition set_jobs (v : list (loc * SourceFile.MapJob)) (w : World) : World :=
  {| files := files w; assets := assets w; compiling := compiling w;
     copying := copying w; compiled := compiled w; initial := initial w;
     timer := timer w; heap := heap w; asset_heap := asset_heap w;
     timeouts := timeouts w; timer_count := timer_count w;
     inflight := inflight w; copies := copies w; reads := reads w; jobs := v;
     trace := trace w |}.
Definition set_trace (v : list effect) (w : World) : World :=
  {| files := files w; assets := assets w; compiling := compiling w;
     copying := copying w; compiled := compiled w; initial := initial w;
     timer := timer w; heap := heap w; asset_heap := asset_heap w;
     timeouts := timeouts w; timer_count := timer_count w;
     inflight := inflight w; copies := copies w; reads := reads w;
     jobs := jobs w; trace := v |}.

Section Scheduler.
Context `{Externals}.
Variable cfg : Config.
(** The depth of calls the stack allows; a call beyond it throws a
    [RangeError]. *)
Variable stack : nat.

(** [isIgnored(path, test)], as a truth value, with [fuel] calls left on the
    stack ([None]: the stack is exhausted). *)
Fixpoint isIgnored (fuel : nat) (path : string) (test : rule) : option bool :=
  match fuel with
  | O => None
  | S fuel =>
      if isNpm path then Some false
      else
        let test := if negb (truthy test)
                    then default undefined (conventions cfg !! "ignored")
                    else test in
        if bool_decide (path ∈ configPaths cfg) then Some true
        else match test with
             | RRegExp matches => Some (matches path)
             | RFunction f => Some (f path)
             | RString s => Some (startsWith (normalize path) (normalize s))
             | RArray l => some (isIgnored fuel path) l
             | ROther _ => Some false
             end
  end.

Definition call_isIgnored (path : string) (test : rule) : completion bool :=
  match isIgnored stack path test with
  | Some b => Normal b
  | None => Throw (RangeError "Maximum call stack size exceeded")
  end.

(** [is(name, path)] ([is] is reserved in Rocq) *)
Definition is_ (name path : string) : completion bool :=
  match conventions cfg !! name with
  | None => Normal false
  | Some convention =>
      if negb (truthy convention) then Normal false
      else match convention with
           | RFunction f => Normal (f path)
           | _ => Throw (TypeError "Invalid convention")
           end
  end.

(** A call that can throw and touches no state. *)
Definition lift {S A} (c : completion A) : M S A := fun s => (c, s).

Definition log (e : effect) : M World unit :=
  modify (fun w => set_trace (e :: trace w) w).

(** [debug(line)] *)
Definition debug (line : string) : M World unit := log (Debug line).

(** [this.emit(event, argument)] *)
Definition emit (event : string) (argument : option string) : M World unit :=
  log (Emit event argument).

(** [hasFiles()] *)
Definition hasFiles (w : World) : bool :=
  (0 <? Z.of_nat (size (compiling w))) || (0 <? Z.of_nat (size (copying w))).

(** [resetTimer()]: clear the timeout set before, if any, and set a new one. *)
Definition resetTimer : M World unit :=
  modify (fun w =>
    let pending := match timer w with
                   | Some h => timeouts w ∖ {[h]}
                   | None => timeouts w
                   end in
    let h := timer_count w in
    set_timer (Some h)
      (set_timeouts (pending ∪ {[h]}) (set_timer_count (S h) w))).

(** The property [disposed] of the object at [l]. *)
Definition is_disposed (w : World) (l : loc) : bool :=
  match heap w !! l with
  | Some file => disposed file
  | None => false
  end.

(** The callback [resetTimer] gives to [setTimeout]. *)
Definition timer_fired : M World unit :=
  modify (fun w =>
    set_files (filter (fun l => negb (is_disposed w l)) (files w)) w);;
  w ← get;
  if hasFiles w then resetTimer
  else emit "ready" None;; modify (set_compiled ∅).

(** [find(path)] *)
Definition has_path (w : World) (p : string) (l : loc) : bool :=
  match heap w !! l with
  | Some file => String.eqb (path file) p
  | None => false
  end.

Definition find (w : World) (p : string) : option loc :=
  snd <$> list_find (fun l => has_path w p l) (files w).

(** [findAsset(path)] *)
Definition asset_has_path (w : World) (p : string) (l : loc) : bool :=
  match asset_heap w !! l with
  | Some a => String.eqb (asset_path a) p
  | None => false
  end.

Definition findAsset (w : World) (p : string) : option loc :=
  snd <$> list_find (fun l => asset_has_path w p l) (assets w).

(** Run statements of source_file.js on the object at [file]. *)
Definition on_file {A} (file : loc) (m : M SourceFile.t A) : M World A :=
  fun w =>
    match heap w !! file with
    | Some f => let '(r, f') := m f in (r, set_heap (<[file := f']> (heap w)) w)
    | None => (Throw (TypeError "Cannot read property of undefined"), w)
    end.

(** [file.compile()]: the pipeline is called and its promise is pending. *)
Definition call_compile (file : loc) (p : string) : M World unit :=
  f ← on_file file get;
  log (CallPipeline file (c_path (SourceFile.compile f)));;
  modify (fun w => set_inflight (inflight w ++ [(file, p)]) w).

(** [reset] of [compile] *)
Definition reset (p : string) : M World unit :=
  modify (fun w => set_compiling (compiling w ∖ {[p]}) w);;
  resetTimer.

(** The last continuation of [compile] *)
Definition mark_compiled (p : string) : M World unit :=
  debug ("Compiled " +:+ p);;
  modify (fun w => set_compiled (<[p := true]> (compiled w)) w);;
  emit "compiled" (Some p).

(** [compile(file)] *)
Definition compile (file : loc) : M World unit :=
  p ← on_file file (gets path);
  on_file file (assign (set_removed false));;
  w ← get;
  if bool_decide (p ∈ compiling w) then resetTimer
  else
    modify (fun w => set_compiling ({[p]} ∪ compiling w) w);;
    call_compile file p.

(** [.then(reset, reset).then(() => {...})] in [compile], when the promise
    of [file.compile()] has settled as [settlement]. *)
Definition compile_then (p : string) (settlement : settled unit)
  : M World unit :=
  match settlement with
  | Fulfilled _ => reset p
  | Rejected _ => reset p
  end;;
  mark_compiled p.

(** The filter of [compileDependencyParents]. *)
Definition is_parent (w : World) (p : string) (l : loc) : bool :=
  match heap w !! l with
  | Some dependent =>
      match dependencies dependent with
      | Some deps =>
          (0 <? Z.of_nat (length deps))
          && (0 <=? array_indexOf String.eqb deps p)
          && negb (get_truthy (compiled w) (path dependent))
      | None => false
      end
  | None => false
  end.

Definition path_of (w : World) (l : loc) : string :=
  match heap w !! l with
  | Some file => path file
  | None => ""
  end.

(** [compileDependencyParents(path)] *)
Definition compileDependencyParents (p : string) : M World unit :=
  w ← get;
  let parents := filter (fun l => is_parent w p l) (files w) in
  if Nat.eqb (length parents) 0 then mret tt
  else
    let parentsList := String.concat ", " (path_of w <$> parents) in
    debug ("Compiling dependency " +:+ p +:+ " parent(s): " +:+ parentsList);;
    forEach compile parents.

(** [copy(asset)] *)
Definition copy (asset : loc) : M World unit :=
  w ← get;
  match asset_heap w !! asset with
  | Some a =>
      let p := asset_path a in
      modify (fun w => set_copying ({[p]} ∪ copying w) w);;
      log (CallCopy asset);;
      modify (fun w => set_copies (copies w ++ [(asset, p)]) w)
  | None => throw (TypeError "Cannot read property of undefined")
  end.

(** [resetCopy] of [copy] *)
Definition resetCopy (p : string) : M World unit :=
  modify (fun w => set_copying (copying w ∖ {[p]}) w);;
  resetTimer.

(** [_add(path, compiler, linters, isHelper)] *)
Definition _add (p : string) (compiler : option (list Plugin))
    (linters : list Plugin) (isHelper : bool) : M World loc :=
  isVendor ← lift (is_ "vendor" p);
  let wrapper := moduleWrapper cfg in
  let file := SourceFile.new p compiler linters wrapper isHelper isVendor in
  w ← get;
  let l := fresh (dom (heap w)) in
  modify (set_heap (<[l := file]> (heap w)));;
  modify (fun w => set_files (files w ++ [l]) w);;
  mret l.

(** [_addAsset(path)] *)
Definition _addAsset (p : string) : M World loc :=
  w ← get;
  let l := fresh (dom (asset_heap w)) in
  modify (set_asset_heap
            (<[l := {| asset_path := p; asset_error := None |}]>
               (asset_heap w)));;
  modify (fun w => set_assets (assets w ++ [l]) w);;
  mret l.

(** [_change(path, compiler, linters, isHelper)], up to the call of
    [fcache.updateCache], whose callback is then pending. *)
Definition _change (p : string) (compiler : option (list Plugin))
    (linters : list Plugin) (isHelper : bool) : M World unit :=
  ignored ← lift (call_isIgnored p undefined);
  isAsset ← lift (is_ "assets" p);
  if isAsset : bool then
    if negb ignored then
      w ← get;
      file ← match findAsset w p with
             | Some a => mret a
             | None => _addAsset p
             end;
      copy file
    else mret tt
  else
    debug ("Reading " +:+ p);;
    log (CallUpdateCache p);;
    modify (fun w =>
      set_reads (reads w ++ [{| read_path := p; read_compiler := compiler;
                                read_linters := linters;
                                read_isHelper := isHelper;
                                read_ignored := ignored |}]) w).

(** [compiler && compiler.length] as a truth value *)
Definition has_compilers (compiler : option (list Plugin)) : bool :=
  match compiler with
  | Some l => negb (Nat.eqb (length l) 0)
  | None => false
  end.

(** The first statement of the callback [_change] gives to
    [fcache.updateCache]: the file itself is compiled, if it has compilers
    and is not ignored, or is a JSON file of a package. *)
Definition compile_changed (r : Read) : M World unit :=
  let p := read_path r in
  if negb (read_ignored r) && has_compilers (read_compiler r)
     || isNpmJSON p
  then
    w ← get;
    sourceFile ← match find w p with
                  | Some l => mret l
                  | None => _add p (read_compiler r) (read_linters r)
                              (read_isHelper r)
                  end;
    compile sourceFile
  else mret tt.

(** The callback [_change] gives to [fcache.updateCache]. *)
Definition change_read (r : Read) (error : option exn) : M World unit :=
  let p := read_path r in
  match error with
  | Some e => throw (PlainError (formatError "Reading" e))
  | None =>
      compile_changed r;;
      w ← get;
      (if negb (initial w) then compileDependencyParents p else mret tt);;
      resetTimer
  end.

(** [_unlink(path)] *)
Definition _unlink (p : string) : M World unit :=
  ignored ← lift (call_isIgnored p undefined);
  isAsset ← lift (is_ "assets" p);
  (if isAsset : bool then
     if negb ignored then
       modify (fun w =>
         set_assets
           (splice (assets w)
              (array_indexOf (fun a x => strict_equals (VObject a) x)
                 (assets w) (VString p)) 1) w)
     else mret tt
   else
     if ignored : bool then compileDependencyParents p
     else
       w ← get;
       match find w p with
       | Some file =>
           if negb (is_disposed w file)
           then on_file file (assign (set_removed true))
           else mret tt
       | None => mret tt
       end);;
  resetTimer.

(** [getAssetErrors()]: the formatted errors of the assets that have one,
    or [null] when none has. [format] is [formatError], applied here to an
    error and a path. *)
Definition has_error (w : World) (l : loc) : bool :=
  match asset_heap w !! l with
  | Some a => bool_decide (is_Some (asset_error a))
  | None => false
  end.

Definition format_asset (format : exn -> string -> string) (w : World)
    (l : loc) : option string :=
  a ← asset_heap w !! l;
  e ← asset_error a;
  Some (format e (asset_path a)).

Definition getAssetErrors (format : exn -> string -> string) (w : World)
  : option (list string) :=
  let invalid := filter (fun l => has_error w l) (assets w) in
  if 0 <? Z.of_nat (length invalid)
  then Some (omap (format_asset format w) invalid)
  else None.

(** *** The event loop

    What can happen next: the watcher emits [change] or [unlink], a pending
    callback or promise is run, the timeout fires, or the stage downstream
    disposes a record or ends the first build. *)
Inductive event :=
| Change (p : string) (compiler : option (list Plugin))
    (linters : list Plugin) (isHelper : bool)
| Unlink (p : string)
| ReadDone (i : nat) (error : option exn)
| PipelineSettled (i : nat) (now : Z)
    (outcome : settled (option PipelineResult))
| CopySettled (i : nat)
| TimeoutFired (h : nat)
| MapSettled (i : nat) (order : list string)
    (readFile : string -> option string)
| Dispose (file : loc)
| FirstBuildDone.

(** The constructor. *)
Definition init : World :=
  {| files := []; assets := []; compiling := ∅; copying := ∅;
     compiled := ∅; initial := true; timer := None;
     heap := ∅; asset_heap := ∅; timeouts := ∅; timer_count := 0%nat;
     inflight := []; copies := []; reads := []; jobs := []; trace := [] |}.

(** The pipeline's promise of the record at [file] settles: the record's
    continuations run. The result is how the promise of [file.compile()]
    settles. *)
Definition file_compile_settled (file : loc) (now : Z)
    (outcome : settled (option PipelineResult)) : M World (settled unit) :=
  fun w =>
    match heap w !! file with
    | Some f =>
        let '(settlement, job, f') :=
          compile_settled now (SourceFile.compile f) outcome f in
        (Normal settlement,
         set_jobs (jobs w ++ match job with
                             | Some j => [(file, j)]
                             | None => []
                             end)
           (set_heap (<[file := f']> (heap w)) w))
    | None => (Throw (TypeError "Cannot read property of undefined"), w)
    end.

Definition handle (ev : event) : M World unit :=
  match ev with
  | Change p compiler linters isHelper => _change p compiler linters isHelper
  | Unlink p => _unlink p
  | ReadDone i error =>
      w ← get;
      match reads w !! i with
      | Some r =>
          modify (set_reads (delete i (reads w)));;
          change_read r error
      | None => mret tt
      end
  | PipelineSettled i now outcome =>
      w ← get;
      match inflight w !! i with
      | Some (file, p) =>
          modify (set_inflight (delete i (inflight w)));;
          settlement ← file_compile_settled file now outcome;
          compile_then p settlement
      | None => mret tt
      end
  | CopySettled i =>
      w ← get;
      match copies w !! i with
      | Some (_, p) =>
          modify (set_copies (delete i (copies w)));;
          resetCopy p
      | None => mret tt
      end
  | TimeoutFired h =>
      w ← get;
      if bool_decide (h ∈ timeouts w)
      then modify (set_timeouts (timeouts w ∖ {[h]}));; timer_fired
      else mret tt
  | MapSettled i order readFile =>
      w ← get;
      match jobs w !! i with
      | Some (file, job) =>
          if bool_decide (order ≡ₚ job_reads job) then
            modify (set_jobs (delete i (jobs w)));;
            match settle_reads readFile order (job_node job) with
            | Some n => on_file file (store_node n)
            | None => mret tt
            end
          else mret tt
      | None => mret tt
      end
  | Dispose file => on_file file dispose
  | FirstBuildDone => modify (set_initial false)
  end.

(** One turn of the event loop. An exception that reaches the loop leaves
    the state as it was when it was thrown. *)
Definition step (ev : event) (w : World) : World := (handle ev w).2.

Inductive reachable : World -> Prop :=
| reachable_init : reachable init
| reachable_step ev w : reachable w -> reachable (step ev w).

End Scheduler.

End FileList.

(** * States and environments for the examples *)

Import SourceFile FileList.

(** ** A concrete environment for the examples

    Paths under [node_modules/] are the package-dependency namespace. The
    paths of the examples are already normal, so [normalize] only has to
    turn the empty string into ["."], as [path.normalize] does. *)
Section Sample.

Definition sample_map : SourceNode.RawSourceMap :=
  {| SourceNode.sources := Some ["a.js"; "b.js"];
     SourceNode.sourcesContent := [];
     SourceNode.mappings := "AAAA" |}.

(** The double quote, and a quoted word. *)
Definition quote : string := String (Ascii.ascii_of_nat 34) "".

Definition quoted (s : string) : string := quote +:+ s +:+ quote.

(** The JSON text of [sample_map]. *)
Definition sample_json : string :=
  "{" +:+ quoted "version" +:+ ":3," +:+ quoted "sources" +:+ ":["
  +:+ quoted "a.js" +:+ "," +:+ quoted "b.js" +:+ "],"
  +:+ quoted "names" +:+ ":[]," +:+ quoted "mappings" +:+ ":"
  +:+ quoted "AAAA" +:+ "}".

#[local] Instance sample_externals : Externals :=
  {| isNpm := fun p => String.prefix "node_modules/" p;
     isNpmJSON := fun p => String.prefix "node_modules/" p
                           && String.eqb (slice p (-5) (strlen p)) ".json";
     normalize := fun p => if String.eqb p "" then "." else p;
     isWindows := false;
     replaceBackSlashes := fun p => p;
     JSON_parse := fun json =>
       if String.eqb json sample_json then Some sample_map else None;
     formatError := fun kind _ => kind |}.

End Sample.

(** A record that has been compiled once: it has data and a node. *)
Definition compiled_file : SourceFile.t :=
  set_node (Some (identityNode "var x=1;" "a.js"))
    (set_data (Some "var x=1;")
       (SourceFile.new (H := sample_externals) "a.js" None []
          (fun _ data _ => WString data) false false)).

(** A configuration whose [ignored] convention ignores every path. *)
Definition ignore_all : Config :=
  {| fileListInterval := None; publicPath := "public";
     conventions := {[ "ignored" := RFunction (fun _ => true) ]};
     moduleWrapper := fun _ data _ => WString data;
     configPaths := ["brunch-config.js"] |}.

(** ** Concrete states for the examples *)
Section SampleWorlds.

(** Assets are the paths under [app/assets/], vendor files those under
    [vendor/]; the paths under [tmp/] are ignored. *)
Definition sample_cfg : Config :=
  {| fileListInterval := None; publicPath := "public";
     conventions :=
       {[ "assets" := RFunction (String.prefix "app/assets/");
          "vendor" := RFunction (String.prefix "vendor/");
          "ignored" := RFunction (String.prefix "tmp/") ]};
     moduleWrapper := fun _ data _ => WString data;
     configPaths := ["brunch-config.js"] |}.

Definition sample_stack : nat := 64.

(** Two assets, [a.png] before [b.png]. *)
Definition two_assets : World :=
  set_assets [0%nat; 1%nat]
    (set_asset_heap
       {[ 0%nat := {| asset_path := "app/assets/a.png"; asset_error := None |};
          1%nat := {| asset_path := "app/assets/b.png"; asset_error := None |} ]}
       init).

End SampleWorlds.

(** ** Reachable states for the examples *)
Section SampleRuns.

Definition js_plugin : Plugin := {| plugin_type := Some "javascript" |}.

Definition run (evs : list event) : World :=
  foldl (fun w ev => step (H := sample_externals) sample_cfg sample_stack ev w)
    init evs.

(** [app/a.js] changes and is read, so its compile is pending. *)
Definition compiling_a : list event :=
  [Change "app/a.js" (Some [js_plugin]) [] false; ReadDone 0 None].

(** Then [app/a.js] is unlinked: its record is marked removed while the
    compile is still pending. *)
Definition removed_while_compiling : World :=
  run (compiling_a ++ [Unlink "app/a.js"]).

(** The compile of [app/a.js] resolves with a dependency on the ignored
    [tmp/x.scss], and the timer fires: the first build is still going on,
    nothing is pending, nothing is marked compiled. *)
Definition a_depends_on_x : World :=
  run (compiling_a ++
       [PipelineSettled 0 1000
          (Fulfilled (Some {| pr_source := "x = 1"; pr_compiled := "var x=1;";
                              pr_dependencies := Some ["tmp/x.scss"];
                              pr_sourceMap := None |}));
        TimeoutFired 1]).

End SampleRuns.

(** The record of [app/a.js] in [removed_while_compiling]. *)
Definition removed_a : SourceFile.t :=
  set_removed true
    (SourceFile.new (H := sample_externals) "app/a.js" (Some [js_plugin]) []
       (moduleWrapper sample_cfg) false false).

(** A rule with lists nested two deep. *)
Definition nested_rule : rule :=
  RArray [RString "tmp/"; RArray [RString "vendor/"; RFunction (fun _ => false)]].

(** A configuration whose [ignored] convention is a list that starts with
    the empty string. *)
Definition ignore_list_with_empty : Config :=
  {| fileListInterval := None; publicPath := "public";
     conventions :=
       {[ "ignored" := RArray [RString ""; RFunction (String.prefix "tmp/")] ]};
     moduleWrapper := fun _ data _ => WString data;
     configPaths := ["brunch-config.js"] |}.

Definition css_plugin : Plugin := {| plugin_type := Some "stylesheet" |}.

(** A stylesheet: its type is neither [javascript] nor [template]. *)
Definition stylesheet : SourceFile.t :=
  SourceFile.new (H := sample_externals) "app/a.css" (Some [css_plugin]) []
    (fun _ data _ => WObject (Some "(function(){") (Some "})();") (Some data))
    false false.

(** The contents of the two sources of [sample_map]. *)
Definition sample_readFile (p : string) : option string :=
  if String.eqb p "a.js" then Some "a = 1"
  else if String.eqb p "b.js" then Some "b = 2" else None.

(** [app/a.js] has changed and its read is pending. *)
Definition reading_a : World :=
  run [Change "app/a.js" (Some [js_plugin]) [] false].

(** After [a_depends_on_x], the stage downstream disposes the record of
    [app/a.js]. *)
Definition a_disposed : World :=
  step (H := sample_externals) sample_cfg sample_stack (Dispose 0%nat)
    a_depends_on_x.


(** The compile of [app/a.js] has failed; the timeout set then is pending. *)
Definition a_failed : list event :=
  compiling_a ++
  [PipelineSettled 0 1000 (Rejected (PlainError "syntax error"))].


(** What the pipeline resolves with for a file that depends on
    [tmp/x.scss]. *)
Definition depends_on_x : option PipelineResult :=
  Some {| pr_source := "x = 1"; pr_compiled := "var x=1;";
          pr_dependencies := Some ["tmp/x.scss"]; pr_sourceMap := None |}.

(** Two files, [app/a.js] and one with the path [constructor], were changed,
    read and compiled, each with a dependency on [tmp/x.scss]; then the
    timeout fired: nothing is pending, nothing is marked compiled. *)
Definition constructor_depends_on_x : World :=
  run [Change "app/a.js" (Some [js_plugin]) [] false; ReadDone 0 None;
       PipelineSettled 0 1000 (Fulfilled depends_on_x);
       Change "constructor" (Some [js_plugin]) [] false; ReadDone 0 None;
       PipelineSettled 0 2000 (Fulfilled depends_on_x);
       TimeoutFired 3].


(** * Properties *)

(** ** Strings, [indexOf] and [slice] *)
Section StringFacts.

Lemma strlen_nonneg s : 0 <= strlen s.
Proof. unfold strlen. lia. Qed.

Lemma append_cons a s t : String a s +:+ t = String a (s +:+ t).
Proof. reflexivity. Qed.

Lemma append_empty_l s : "" +:+ s = s.
Proof. reflexivity. Qed.

Lemma append_empty_r s : s +:+ "" = s.
Proof.
  induction s as [|a s IH]; [done |]. by rewrite append_cons, IH.
Qed.

Lemma append_assoc s1 s2 s3 : (s1 +:+ s2) +:+ s3 = s1 +:+ (s2 +:+ s3).
Proof.
  induction s1 as [|a s1 IH]; [done |]. by rewrite !append_cons, IH.
Qed.

Lemma length_append s1 s2 :
  String.length (s1 +:+ s2) = (String.length s1 + String.length s2)%nat.
Proof.
  induction s1 as [|a s1 IH]; [done |]. rewrite append_cons. simpl.
  by rewrite IH.
Qed.

Lemma strlen_append s1 s2 : strlen (s1 +:+ s2) = strlen s1 + strlen s2.
Proof. unfold strlen. rewrite length_append. lia. Qed.

Lemma strlen_zero s : strlen s = 0 -> s = "".
Proof. destruct s; [done | unfold strlen; simpl; lia]. Qed.

Lemma truthy_string_false s : truthy_string s = false -> s = "".
Proof. by destruct s. Qed.

Lemma truthy_string_true s : truthy_string s = true <-> s ≠ "".
Proof. destruct s; simpl; split; congruence. Qed.

Lemma str_take_drop n s : str_take n s +:+ str_drop n s = s.
Proof.
  revert s. induction n as [|n IH]; intros [|a s]; simpl; try done.
  by rewrite append_cons, IH.
Qed.

Lemma length_str_take n s :
  String.length (str_take n s) = Nat.min n (String.length s).
Proof.
  revert s. induction n as [|n IH]; intros [|a s]; simpl; try done.
  by rewrite IH.
Qed.

Lemma length_str_drop n s :
  String.length (str_drop n s) = (String.length s - n)%nat.
Proof.
  revert s. induction n as [|n IH]; intros [|a s]; simpl; done.
Qed.

Lemma str_take_all n s : (String.length s <= n)%nat -> str_take n s = s.
Proof.
  revert s. induction n as [|n IH]; intros [|a s]; simpl; try done; try lia.
  intros ?. rewrite IH; [done | lia].
Qed.

Lemma str_drop_drop n m s : str_drop n (str_drop m s) = str_drop (m + n) s.
Proof.
  revert s. induction m as [|m IH]; intros s; simpl; [done |].
  destruct s as [|a s]; [by destruct n | apply IH].
Qed.

(** A prefix can be split off. *)
Lemma prefix_split c s :
  String.prefix c s = true -> s = c +:+ str_drop (String.length c) s.
Proof.
  revert s. induction c as [|a c IH]; intros s Hp; [done |].
  destruct s as [|b s]; [done |]. simpl in Hp |- *.
  destruct (ascii_dec a b) as [->|]; [| done].
  rewrite append_cons. f_equal. by apply IH.
Qed.

Lemma prefix_empty s : String.prefix "" s = true.
Proof. by destruct s. Qed.

Lemma indexOf_from_nil i needle :
  indexOf_from i "" needle = if String.prefix needle "" then i else -1.
Proof. reflexivity. Qed.

Lemma indexOf_from_cons i a hay needle :
  indexOf_from i (String a hay) needle =
  if String.prefix needle (String a hay) then i
  else indexOf_from (i + 1) hay needle.
Proof. reflexivity. Qed.

(** [indexOf] answers [-1] or a position not before the start of the
    search. *)
Lemma indexOf_from_range i hay needle :
  indexOf_from i hay needle = -1 \/
  i <= indexOf_from i hay needle <= i + strlen hay.
Proof.
  revert i. induction hay as [|a hay IH]; intros i.
  - rewrite indexOf_from_nil.
    destruct (String.prefix needle ""); [right | by left].
    unfold strlen. simpl. lia.
  - rewrite indexOf_from_cons.
    destruct (String.prefix needle (String a hay)).
    + right. unfold strlen. simpl. lia.
    + destruct (IH (i + 1)) as [->|?]; [by left | right].
      unfold strlen in *. simpl String.length. lia.
Qed.

(** At the position [indexOf] answers, the needle occurs. *)
Lemma indexOf_from_found i hay needle k :
  0 <= i -> indexOf_from i hay needle = i + Z.of_nat k ->
  hay = str_take k hay +:+ needle
          +:+ str_drop (k + String.length needle) hay.
Proof.
  revert i k. induction hay as [|a hay IH]; intros i k Hi.
  - rewrite indexOf_from_nil.
    destruct (String.prefix needle "") eqn:Hp; [| lia].
    intros ?. assert (k = 0%nat) as -> by lia.
    by destruct needle.
  - rewrite indexOf_from_cons.
    destruct (String.prefix needle (String a hay)) eqn:Hp.
    + intros ?. assert (k = 0%nat) as -> by lia. simpl.
      by apply prefix_split in Hp.
    + intros Hk. destruct k as [|k].
      { destruct (indexOf_from_range (i + 1) hay needle); lia. }
      simpl. rewrite append_cons. f_equal. apply (IH (i + 1)); lia.
Qed.

Lemma indexOf_range hay needle :
  indexOf hay needle = -1 \/ 0 <= indexOf hay needle <= strlen hay.
Proof. apply (indexOf_from_range 0). Qed.

Lemma indexOf_found hay needle :
  0 <= indexOf hay needle ->
  hay = str_take (Z.to_nat (indexOf hay needle)) hay +:+ needle
          +:+ str_drop (Z.to_nat (indexOf hay needle) + String.length needle)
                hay.
Proof.
  intros Hk. apply (indexOf_from_found 0); [done |].
  fold (indexOf hay needle). lia.
Qed.

(** An empty needle is found at once. *)
Lemma indexOf_empty hay : indexOf hay "" = 0.
Proof. unfold indexOf. destruct hay; simpl; done. Qed.

(** [slice] between two positions of the string, in order. *)
Lemma slice_inside s i j :
  0 <= i <= j -> j <= strlen s ->
  slice s i j = str_take (Z.to_nat (j - i)) (str_drop (Z.to_nat i) s).
Proof.
  intros Hi Hj. unfold slice, relative_index.
  destruct (Z.ltb_spec i 0), (Z.ltb_spec j 0); try lia.
  repeat f_equal; lia.
Qed.

Lemma slice_from_inside s i :
  0 <= i <= strlen s -> slice_from s i = str_drop (Z.to_nat i) s.
Proof.
  intros Hi. unfold slice_from. rewrite slice_inside by lia.
  apply str_take_all. rewrite length_str_drop. unfold strlen in *. lia.
Qed.

End StringFacts.

(** ** The composed node of [updateMap] *)
Section Rendering.
Context `{Externals}.

Lemma toString_prepend chunk n :
  SourceNode.toString (SourceNode.prepend chunk n)
  = chunk +:+ SourceNode.toString n.
Proof. reflexivity. Qed.

Lemma toString_chunks l1 l2 :
  foldr String.append "" (l1 ++ l2)
  = foldr String.append "" l1 +:+ foldr String.append "" l2.
Proof.
  induction l1 as [|c l1 IH]; simpl; [done |].
  by rewrite IH, append_assoc.
Qed.

Lemma toString_add chunk n :
  SourceNode.toString (SourceNode.add chunk n)
  = SourceNode.toString n +:+ chunk.
Proof.
  unfold SourceNode.toString, SourceNode.add. simpl.
  rewrite toString_chunks. simpl. by rewrite append_empty_r.
Qed.

(** A chunk that is prepended only when it is truthy is prepended in the
    text either way: a falsy chunk is empty. *)
Lemma toString_prepend_truthy prefix n :
  SourceNode.toString
    (if truthy_string prefix then SourceNode.prepend prefix n else n)
  = prefix +:+ SourceNode.toString n.
Proof.
  destruct (truthy_string prefix) eqn:Hs; [apply toString_prepend |].
  by apply truthy_string_false in Hs as ->.
Qed.

Lemma toString_add_truthy suffix n :
  SourceNode.toString
    (if truthy_string suffix then SourceNode.add suffix n else n)
  = SourceNode.toString n +:+ suffix.
Proof.
  destruct (truthy_string suffix) eqn:Hs; [apply toString_add |].
  apply truthy_string_false in Hs as ->. by rewrite append_empty_r.
Qed.

Lemma toString_set_isIdentity b n :
  SourceNode.toString (SourceNode.set_isIdentity b n) = SourceNode.toString n.
Proof. reflexivity. Qed.

Lemma toString_set_source p n :
  SourceNode.toString (SourceNode.set_source p n) = SourceNode.toString n.
Proof. reflexivity. Qed.

Lemma toString_setSourceContent p c n :
  SourceNode.toString (SourceNode.setSourceContent p c n)
  = SourceNode.toString n.
Proof. reflexivity. Qed.

Lemma toString_identityNode code p :
  SourceNode.toString (identityNode code p) = code.
Proof. apply append_empty_r. Qed.

Lemma toString_fromStringWithSourceMap code map :
  SourceNode.toString (SourceNode.fromStringWithSourceMap code map) = code.
Proof. apply append_empty_r. Qed.

(** With a wrapper that returned the string [w], the composed node renders
    the slice of [w] before the position [indexOf] found, the content, and
    the slice of [w] from [compiled.length] past that position. *)
Lemma updateMap_plain_rendered p compiled w sourceMap job :
  updateMap p compiled (WString w) sourceMap = Normal job ->
  SourceNode.toString (job_node job)
  = slice w 0 (indexOf w compiled)
    +:+ (if 0 <? indexOf w compiled then compiled else w)
    +:+ slice_from w (indexOf w compiled + strlen compiled).
Proof.
  unfold updateMap. cbv beta iota zeta.
  set (content := if 0 <? indexOf w compiled then compiled else w).
  set (built := if truthy_map sourceMap then _ else _).
  assert (forall n sm, built = Normal (n, sm) ->
            SourceNode.toString n = content) as Hbuilt.
  { intros n sm. subst built.
    destruct (truthy_map sourceMap);
      [| intros [= <- <-]; apply toString_identityNode].
    destruct sourceMap as [[json|m]|].
    - destruct (JSON_parse _); [| done]. intros [= <- <-].
      apply toString_fromStringWithSourceMap.
    - intros [= <- <-]. apply toString_fromStringWithSourceMap.
    - intros [= <- <-]. apply toString_identityNode. }
  destruct built as [[n sm]|e]; [| done].
  intros [= <-]. cbn [job_node].
  rewrite toString_setSourceContent, toString_set_source.
  rewrite toString_add_truthy, toString_prepend_truthy.
  rewrite toString_set_isIdentity, (Hbuilt n sm eq_refl).
  by rewrite append_assoc.
Qed.

End Rendering.

(** ** The composed text for a wrapper that returns a string *)
Section PlainWrapper.
Context `{Externals}.

Lemma length_slice s i j :
  String.length (slice s i j)
  = Nat.min (Z.to_nat (Z.max (relative_index (strlen s) j
                              - relative_index (strlen s) i) 0))
      (String.length s - Z.to_nat (relative_index (strlen s) i)).
Proof. unfold slice. by rewrite length_str_take, length_str_drop. Qed.

Lemma found_inside w compiled :
  0 <= indexOf w compiled -> indexOf w compiled + strlen compiled <= strlen w.
Proof.
  intros Hpos. pose proof (indexOf_found w compiled Hpos) as Hw.
  apply (f_equal String.length) in Hw.
  rewrite !length_append, length_str_take, length_str_drop in Hw.
  destruct (indexOf_range w compiled) as [|[_ Hle]]; [lia |].
  unfold strlen in *. lia.
Qed.

(** C10: when the wrapper returns a string [w] that starts with the compiled
    text and is longer than it, the node renders [w] followed by a second
    copy of what follows the compiled text in [w] (the prefix is empty, the
    suffix is not). When the compiled text is found at a positive position,
    the node renders prefix, compiled text and suffix, which is [w]. For a
    [w] longer than the compiled text, the node renders [w] only then. *)
Theorem plain_wrapper_rendering p compiled w sourceMap job :
  updateMap p compiled (WString w) sourceMap = Normal job ->
  (indexOf w compiled = 0 -> strlen compiled < strlen w ->
     SourceNode.toString (job_node job)
       = w +:+ slice_from w (strlen compiled)
     /\ slice w 0 (indexOf w compiled) = ""
     /\ slice_from w (strlen compiled) ≠ "")
  /\ (0 < indexOf w compiled ->
        SourceNode.toString (job_node job)
          = slice w 0 (indexOf w compiled) +:+ compiled
            +:+ slice_from w (indexOf w compiled + strlen compiled)
        /\ SourceNode.toString (job_node job) = w)
  /\ (strlen compiled < strlen w ->
        SourceNode.toString (job_node job) = w -> 0 < indexOf w compiled).
Proof.
  intros Hjob. apply updateMap_plain_rendered in Hjob as Htext.
  pose proof (strlen_nonneg compiled) as Hc.
  split; [| split].
  - intros H0 Hlen. rewrite H0 in Htext |- *. simpl in Htext.
    assert (slice w 0 0 = "") as Hnil.
    { apply strlen_zero. unfold strlen. rewrite length_slice.
      unfold relative_index. simpl. lia. }
    rewrite Hnil in Htext. split; [done | split; [done |]].
    rewrite slice_from_inside by lia. intros Hnil'.
    apply (f_equal String.length) in Hnil'.
    rewrite length_str_drop in Hnil'. unfold strlen in *. simpl in Hnil'. lia.
  - intros Hpos.
    destruct (Z.ltb_spec 0 (indexOf w compiled)); [| lia].
    split; [done |]. rewrite Htext.
    pose proof (found_inside w compiled ltac:(lia)) as Hin.
    rewrite slice_inside, slice_from_inside by lia.
    replace (Z.to_nat (indexOf w compiled - 0))
      with (Z.to_nat (indexOf w compiled)) by lia.
    replace (Z.to_nat (indexOf w compiled + strlen compiled))
      with (Z.to_nat (indexOf w compiled) + String.length compiled)%nat
      by (unfold strlen; lia).
    symmetry. apply indexOf_found. lia.
  - intros Hlen Hw. rewrite Hw in Htext.
    apply (f_equal String.length) in Htext.
    rewrite !length_append, !length_slice in Htext.
    destruct (Z.ltb_spec 0 (indexOf w compiled)) as [|Hle]; [done |].
    exfalso. destruct (indexOf_range w compiled) as [Hneg|[Hge _]].
    + rewrite Hneg in Htext. unfold slice_from in Htext.
      rewrite length_slice in Htext. unfold relative_index in Htext.
      simpl in Htext.
      destruct compiled as [|a c].
      { rewrite indexOf_empty in Hneg. lia. }
      unfold strlen in *. simpl String.length in *.
      destruct (Z.ltb_spec (-1 + Z.of_nat (S (String.length c))) 0); lia.
    + assert (indexOf w compiled = 0) as H0 by lia.
      rewrite H0 in Htext. unfold slice_from in Htext.
      rewrite length_slice in Htext. unfold relative_index in Htext.
      unfold strlen in *.
      destruct (Z.ltb_spec (0 + Z.of_nat (String.length compiled)) 0);
        destruct (Z.ltb_spec (Z.of_nat (String.length w)) 0); simpl in Htext;
        lia.
Qed.

End PlainWrapper.

Lemma plain_wrapper_rendering_witness :
  exists job,
    updateMap (H := sample_externals)
      "a.js" "var x=1;" (WString "var x=1;})();") None = Normal job
    /\ SourceNode.toString (job_node job) = "var x=1;})();})();".
Proof.
  eexists. split; [reflexivity |].
  exact (proj1 (proj1 (plain_wrapper_rendering (H := sample_externals)
                         "a.js" "var x=1;" "var x=1;})();" None _ eq_refl)
                  eq_refl eq_refl)).
Defined.

(** ** [updateCache]: a null result and a rejection *)
Section UpdateCache.
Context `{Externals}.

(** On a frozen record every branch of [updateCache] throws at its first
    assignment and changes nothing. *)
Lemma updateCache_frozen now p error result wrap cache :
  frozen cache = true ->
  exists e, updateCache now p error result wrap cache = (Throw e, cache).
Proof.
  intros Hf. unfold updateCache.
  destruct error as [e|]; [| destruct result as [r|]];
    unfold mbind, M_bind, assign; rewrite Hf; eauto.
Qed.

Lemma updateCache_null now p wrap cache :
  frozen cache = false ->
  updateCache now p None None wrap cache
  = (Normal ReturnsCache,
     set_compilationTime (Some now) (set_data None (set_error None cache))).
Proof.
  intros Hf. unfold updateCache, mbind, M_bind, assign.
  by repeat (cbn; rewrite ?Hf).
Qed.

Lemma updateCache_error now p e result wrap cache :
  frozen cache = false ->
  updateCache now p (Some e) result wrap cache
  = (Normal ReturnsCache, set_error (Some e) cache).
Proof.
  intros Hf. unfold updateCache, mbind, M_bind, assign.
  by repeat (cbn; rewrite ?Hf).
Qed.

(** C4, as the code has it: when the pipeline resolves with a null result,
    a record that is not frozen gets [error] and [data] set to null and a
    new compilation time, and keeps its [node] and every other field; when
    the pipeline rejects, the error is stored in [error], and [data] and
    [node] keep their values. A frozen record is left as it is. *)
Theorem compile_settled_null_or_rejected now c cache :
  (frozen cache = false ->
     let after := (compile_settled now c (Fulfilled None) cache).2 in
     error after = None /\ data after = None
     /\ compilationTime after = Some now
     /\ node after = node cache
     /\ after = set_compilationTime (Some now)
                  (set_data None (set_error None cache)))
  /\ (forall e, frozen cache = false ->
        let after := (compile_settled now c (Rejected e) cache).2 in
        error after = Some e /\ data after = data cache
        /\ node after = node cache /\ after = set_error (Some e) cache)
  /\ (forall outcome, frozen cache = true ->
        (compile_settled now c outcome cache).2 = cache).
Proof.
  split; [| split].
  - intros Hf. unfold compile_settled. by rewrite updateCache_null.
  - intros e Hf. unfold compile_settled. by rewrite updateCache_error.
  - intros outcome Hf. unfold compile_settled.
    destruct outcome as [d|e].
    + by destruct (updateCache_frozen now (replaceBackSlashes (c_path c))
                     None d (makeWrapper c) cache Hf) as [e' ->].
    + by destruct (updateCache_frozen now (replaceBackSlashes (c_path c))
                     (Some e) None (makeWrapper c) cache Hf) as [e' ->].
Qed.

End UpdateCache.

(** C4, as stated, fails: after a null result the record still has the node
    of the compile before, while its data is null. *)
Lemma null_result_keeps_node :
  let after := (compile_settled (H := sample_externals) 1000
                  (SourceFile.compile compiled_file) (Fulfilled None)
                  compiled_file).2 in
  node after = Some (identityNode "var x=1;" "a.js")
  /\ data after = None /\ error after = None.
Proof. by vm_compute. Qed.

(** ** [isIgnored] *)
Section IsIgnored.
Context `{Externals}.
Variable cfg : Config.

(** [some] is a short-circuit OR: it answers true exactly when the test
    holds for an element and fails for all those before it, and false
    exactly when it fails for every element. *)
Lemma some_true {A} (test : A -> option bool) l :
  some test l = Some true <->
  exists l1 x l2, l = l1 ++ x :: l2 /\ test x = Some true
                  /\ Forall (fun y => test y = Some false) l1.
Proof.
  induction l as [|y l IH]; simpl.
  - split; [done |]. intros (l1 & x & l2 & Hl & _). by destruct l1.
  - destruct (test y) as [[|]|] eqn:Hy.
    + split; [| done]. intros _. by exists [], y, l.
    + rewrite IH. split.
      * intros (l1 & x & l2 & -> & Hx & Hl1).
        exists (y :: l1), x, l2. split; [done |]. split; [done |].
        by constructor.
      * intros (l1 & x & l2 & Hl & Hx & Hl1).
        destruct l1 as [|z l1]; injection Hl as -> ->; [congruence |].
        apply Forall_cons in Hl1 as [_ Hl1]. exists l1, x, l2.
        by repeat split.
    + split; [done |]. intros (l1 & x & l2 & Hl & Hx & Hl1).
      destruct l1 as [|z l1]; injection Hl as -> ->; [congruence |].
      apply Forall_cons in Hl1 as [? _]. congruence.
Qed.

Lemma some_false {A} (test : A -> option bool) l :
  some test l = Some false <-> Forall (fun y => test y = Some false) l.
Proof.
  induction l as [|y l IH]; simpl; [by split |].
  destruct (test y) as [[|]|] eqn:Hy.
  - split; [done |]. rewrite Forall_cons. intros [? _]. congruence.
  - rewrite IH, Forall_cons. tauto.
  - split; [done |]. rewrite Forall_cons. intros [? _]. congruence.
Qed.

(** The rule that is evaluated: the one given, or the [ignored] convention
    when the one given is falsy (not given, or the empty string). *)
Definition effective_rule (test : rule) : rule :=
  if truthy test then test
  else default undefined (conventions cfg !! "ignored").

(** C6, as the code has it: a path in the package-dependency namespace is
    not ignored, whatever the rule; any other path that is one of the
    configuration files is ignored, whatever the rule; only for the remaining
    paths a rule is evaluated, by its kind. The rule evaluated is the one
    given when it is truthy and the [ignored] convention otherwise; the
    elements of a list are tested by [isIgnored] itself, up to the first that
    matches. *)
Theorem isIgnored_order fuel p test :
  (isNpm p = true -> isIgnored cfg (S fuel) p test = Some false)
  /\ (isNpm p = false -> p ∈ configPaths cfg ->
        isIgnored cfg (S fuel) p test = Some true)
  /\ (isNpm p = false -> p ∉ configPaths cfg ->
        isIgnored cfg (S fuel) p test
        = match effective_rule test with
          | RRegExp matches => Some (matches p)
          | RFunction f => Some (f p)
          | RString s => Some (startsWith (normalize p) (normalize s))
          | RArray l => some (isIgnored cfg fuel p) l
          | ROther _ => Some false
          end)
  /\ (truthy test = true -> effective_rule test = test)
  /\ (truthy test = false ->
        effective_rule test
        = default undefined (conventions cfg !! "ignored")).
Proof.
  unfold effective_rule. repeat split.
  - intros Hnpm. simpl. by rewrite Hnpm.
  - intros Hnpm Hcfg. simpl. rewrite Hnpm. by rewrite bool_decide_true.
  - intros Hnpm Hcfg. simpl. rewrite Hnpm. rewrite bool_decide_false by done.
    by destruct (truthy test).
  - by intros ->.
  - by intros ->.
Qed.

(** *** Enough stack gives an answer *)

(** The depth to which lists are nested in a rule. *)
Fixpoint rule_depth (r : rule) : nat :=
  match r with
  | RArray l => Datatypes.S (foldr (fun x d => Nat.max (rule_depth x) d) 0%nat l)
  | _ => 0%nat
  end.

(** No list in the rule has a falsy element. *)
Fixpoint elements_truthy (r : rule) : bool :=
  match r with
  | RArray l => forallb (fun x => truthy x && elements_truthy x) l
  | _ => true
  end.

Lemma rule_ind_nested (P : rule -> Prop) :
  (forall matches, P (RRegExp matches)) ->
  (forall f, P (RFunction f)) ->
  (forall s, P (RString s)) ->
  (forall l, Forall P l -> P (RArray l)) ->
  (forall b, P (ROther b)) ->
  forall r, P r.
Proof.
  intros Hre Hf Hs Ha Ho. fix IH 1.
  intros [m|f|s|l|b]; [apply Hre | apply Hf | apply Hs | | apply Ho].
  apply Ha. induction l as [|x l IHl]; constructor; [apply IH | apply IHl].
Qed.

Lemma rule_depth_element x l :
  x ∈ l ->
  (rule_depth x <= foldr (fun x d => Nat.max (rule_depth x) d) 0 l)%nat.
Proof.
  induction 1 as [x l|x y l Hx IH]; simpl; lia.
Qed.

Lemma some_mono {A} (f g : A -> option bool) l b :
  (forall x b, x ∈ l -> f x = Some b -> g x = Some b) ->
  some f l = Some b -> some g l = Some b.
Proof.
  induction l as [|x l IH]; intros Hfg; simpl; [done |].
  destruct (f x) as [[|]|] eqn:Hx; [| | done].
  - rewrite (Hfg x true) by (done || left). done.
  - rewrite (Hfg x false) by (done || left).
    apply IH. intros y c Hy. apply Hfg. by right.
Qed.

Lemma some_returns {A} (f : A -> option bool) l :
  Forall (fun x => exists b, f x = Some b) l -> exists b, some f l = Some b.
Proof.
  induction 1 as [|x l [b Hx] _ [c IH]]; simpl; [by eexists |].
  rewrite Hx. destruct b; eauto.
Qed.

Lemma isIgnored_S n p test :
  isIgnored cfg (Datatypes.S n) p test =
  if isNpm p then Some false
  else if bool_decide (p ∈ configPaths cfg) then Some true
       else match effective_rule test with
            | RRegExp matches => Some (matches p)
            | RFunction f => Some (f p)
            | RString s => Some (startsWith (normalize p) (normalize s))
            | RArray l => some (isIgnored cfg n p) l
            | ROther _ => Some false
            end.
Proof.
  unfold effective_rule. simpl. by destruct (truthy test).
Qed.

(** An answer does not change with more stack. *)
Lemma isIgnored_mono n m p test b :
  (n <= m)%nat ->
  isIgnored cfg n p test = Some b -> isIgnored cfg m p test = Some b.
Proof.
  revert m test b. induction n as [|n IH]; intros m test b Hle; [done |].
  destruct m as [|m]; [lia |]. rewrite !isIgnored_S.
  destruct (isNpm p); [done |].
  destruct (bool_decide (p ∈ configPaths cfg)); [done |].
  destruct (effective_rule test) as [| | |l|]; try done.
  apply some_mono. intros x c _. apply IH. lia.
Qed.

(** A truthy rule without falsy elements is evaluated by itself. *)
Lemma isIgnored_returns_truthy p r :
  truthy r = true -> elements_truthy r = true ->
  forall n, (rule_depth r < n)%nat -> exists b, isIgnored cfg n p r = Some b.
Proof.
  induction r as [m|f|s|l IH|c] using rule_ind_nested;
    intros Htruthy Hel [|n] Hn; try lia; rewrite isIgnored_S;
    (destruct (isNpm p); [by eexists |]);
    (destruct (bool_decide (p ∈ configPaths cfg)); [by eexists |]);
    unfold effective_rule; rewrite Htruthy; try by eexists.
  apply some_returns. rewrite Forall_forall in IH |- *.
  intros x Hx. simpl in Hel. rewrite forallb_forall in Hel.
  specialize (Hel x (proj1 (list_elem_of_In _ _) Hx)).
  apply andb_true_iff in Hel as [Hx1 Hx2].
  apply IH; [done | done | done |].
  pose proof (rule_depth_element x l Hx). cbn [rule_depth] in Hn. lia.
Qed.

(** When no list of the [ignored] convention has a falsy element,
    [isIgnored] answers for every path and rule, with a stack as deep as the
    rule and the convention are nested. *)
Lemma isIgnored_returns p test :
  elements_truthy (default undefined (conventions cfg !! "ignored")) = true ->
  forall n,
    (rule_depth test
     + rule_depth (default undefined (conventions cfg !! "ignored")) + 1
     < n)%nat ->
    exists b, isIgnored cfg n p test = Some b.
Proof.
  remember (default undefined (conventions cfg !! "ignored")) as d eqn:Heqd.
  intros Hd.
  assert (forall x n, truthy x = false -> (rule_depth d < n)%nat ->
            exists b, isIgnored cfg n p x = Some b) as Hfalsy.
  { intros x [|n] Hx Hn; [lia |]. rewrite isIgnored_S.
    destruct (isNpm p); [by eexists |].
    destruct (bool_decide (p ∈ configPaths cfg)); [by eexists |].
    unfold effective_rule. rewrite Hx, <- Heqd.
    destruct d as [m|f|s|l|c]; try by eexists.
    apply some_returns. rewrite Forall_forall. intros y Hy.
    simpl in Hd. rewrite forallb_forall in Hd.
    specialize (Hd y (proj1 (list_elem_of_In _ _) Hy)).
    apply andb_true_iff in Hd as [Hy1 Hy2].
    apply isIgnored_returns_truthy; [done | done |].
    pose proof (rule_depth_element y l Hy). cbn [rule_depth] in Hn. lia. }
  induction test as [m|f|s|l IH|c] using rule_ind_nested; intros n Hn;
    match goal with
    | |- exists b, isIgnored _ _ _ ?r = _ =>
        destruct (truthy r) eqn:Htruthy; [| apply Hfalsy; [done | lia]]
    end;
    (destruct n as [|n]; [lia |]); rewrite isIgnored_S;
    (destruct (isNpm p); [by eexists |]);
    (destruct (bool_decide (p ∈ configPaths cfg)); [by eexists |]);
    unfold effective_rule; rewrite Htruthy; try by eexists.
  apply some_returns. rewrite Forall_forall in IH |- *.
  intros x Hx. apply IH; [done |].
  pose proof (rule_depth_element x l Hx). cbn [rule_depth] in Hn. lia.
Qed.

End IsIgnored.

(** C6, as stated, fails for the empty string as a rule: it is no prefix of
    the normalized path ([normalize] makes it ["."]), and the path is
    ignored all the same, because the [ignored] convention is evaluated in
    its place. *)
Lemma empty_string_rule_is_default :
  isIgnored (H := sample_externals) ignore_all 2 "app/a.js" (RString "")
  = Some true
  /\ startsWith (normalize (Externals := sample_externals) "app/a.js")
       (normalize (Externals := sample_externals) "") = false
  /\ isNpm (Externals := sample_externals) "app/a.js" = false
  /\ bool_decide ("app/a.js" ∈ configPaths ignore_all) = false.
Proof. by vm_compute. Qed.

(** ** [_unlink] of an asset *)
Section UnlinkAsset.
Context `{Externals}.
Variable cfg : Config.
Variable stack : nat.

(** No object is [===] to a string. *)
Lemma indexOf_string_in_objects (l : list loc) (p : string) i :
  array_indexOf_from (fun a x => strict_equals (VObject a) x) i l (VString p)
  = -1.
Proof. revert i. induction l as [|a l IH]; intros i; simpl; [done | apply IH]. Qed.

(** [splice(-1, 1)] removes the last element, if there is one. *)
Lemma splice_last {A} (l : list A) :
  splice l (-1) 1 = take (length l - 1) l.
Proof.
  unfold splice, relative_index. simpl.
  destruct l as [|x l] using rev_ind; [done |].
  rewrite length_app. simpl.
  replace (Z.to_nat (Z.max (Z.of_nat (length l + 1) + -1) 0)) with (length l)
    by lia.
  replace (length l + 1 - 1)%nat with (length l) by lia.
  rewrite drop_ge by (rewrite length_app; simpl; lia).
  by rewrite app_nil_r.
Qed.

(** What [_unlink] does to the asset list for a path that is an asset by
    convention and is not ignored: whatever the path, the last asset of the
    list is removed. *)
Lemma unlink_asset_removes_last p w :
  call_isIgnored cfg stack p undefined = Normal false ->
  is_ cfg "assets" p = Normal true ->
  assets (_unlink cfg stack p w).2 = take (length (assets w) - 1) (assets w).
Proof.
  intros Hign Has. unfold _unlink, mbind, M_bind, lift. rewrite Hign, Has.
  simpl. unfold array_indexOf. rewrite indexOf_string_in_objects.
  apply splice_last.
Qed.

End UnlinkAsset.

(** C3, on the code: with the assets [a.png] and [b.png] in the list, the
    unlink of [a.png] removes the record of [b.png] and leaves that of
    [a.png]. *)
Theorem unlink_first_asset_removes_second :
  let w := step (H := sample_externals) sample_cfg sample_stack
             (Unlink "app/assets/a.png") two_assets in
  assets w = [0%nat]
  /\ asset_path <$> (asset_heap w !! 0%nat) = Some "app/assets/a.png".
Proof. by vm_compute. Qed.

(** ** Reasoning about statements *)
Section Hoare.
Context {S : Type}.

(** From a state that satisfies [P], the statement ends, normally or by an
    exception, in a state that satisfies [Q]. *)
Definition hoare {A} (P : S -> Prop) (m : M S A)
    (Q : completion A -> S -> Prop) : Prop :=
  forall s, P s -> Q (m s).1 (m s).2.

(** The statement keeps [I], however it ends. *)
Definition preserves {A} (I : S -> Prop) (m : M S A) : Prop :=
  hoare I m (fun _ => I).

Lemma hoare_bind {A B} P (R : A -> S -> Prop) Q (m : M S A) (f : A -> M S B) :
  hoare P m (fun r s => match r with
                        | Normal a => R a s
                        | Throw e => Q (Throw e) s
                        end) ->
  (forall a, hoare (R a) (f a) Q) ->
  hoare P (m ≫= f) Q.
Proof.
  intros Hm Hf s HP. specialize (Hm s HP).
  unfold mbind, M_bind. destruct (m s) as [[a|e] s']; simpl in *; [| done].
  by apply Hf.
Qed.

Lemma preserves_bind {A B} I (m : M S A) (f : A -> M S B) :
  preserves I m -> (forall a, preserves I (f a)) -> preserves I (m ≫= f).
Proof.
  intros Hm Hf. apply (hoare_bind I (fun _ => I)); [| done].
  intros s HI. specialize (Hm s HI). by destruct (m s) as [[a|e] s'].
Qed.

(** After [get], the value read is the state. *)
Lemma preserves_bind_get {B} I (f : S -> M S B) :
  (forall s, I s -> I (f s s).2) -> preserves I (get ≫= f).
Proof. intros Hf s HI. by apply Hf. Qed.

Lemma preserves_ret {A} I (a : A) : preserves I (mret a : M S A).
Proof. by intros s. Qed.

Lemma preserves_throw {A} I e : preserves I (throw e : M S A).
Proof. by intros s. Qed.

Lemma preserves_get I : preserves I (get : M S S).
Proof. by intros s. Qed.

Lemma preserves_gets {A} I (f : S -> A) : preserves I (gets f).
Proof. by intros s. Qed.

Lemma preserves_modify I (f : S -> S) :
  (forall s, I s -> I (f s)) -> preserves I (modify f).
Proof. intros Hf s HI. by apply Hf. Qed.

Lemma preserves_forEach {A} I (f : A -> M S unit) l :
  (forall x, x ∈ l -> preserves I (f x)) -> preserves I (forEach f l).
Proof.
  induction l as [|x l IH]; intros Hf; simpl; [apply preserves_ret |].
  apply preserves_bind; [apply Hf; left |].
  intros _. apply IH. intros y Hy. apply Hf. by right.
Qed.

End Hoare.

(** An element of a list without duplicates is gone once its position is
    deleted. *)
Lemma NoDup_delete_not_elem {A} (l : list A) i x :
  NoDup l -> l !! i = Some x -> x ∉ delete i l.
Proof.
  intros Hn. revert i. induction Hn as [|y l Hy Hl IH]; [done |].
  intros [|i]; simpl.
  - by intros [= ->].
  - intros Hi. rewrite elem_of_cons. intros [->|Hx].
    + apply Hy. by apply list_elem_of_lookup_2 in Hi.
    + by apply (IH i).
Qed.

(** ** Invariants of the reachable states *)
Section Invariant.
Context `{Externals}.
Variable cfg : Config.
Variable stack : nat.

(** A record is frozen exactly when it is disposed, and a disposed record
    has no dependencies. *)
Definition wf_file (f : SourceFile.t) : Prop :=
  disposed f = frozen f
  /\ (disposed f = true -> dependencies f = Some []).

Record Inv (w : World) : Prop := {
  (** no two pending compiles have the same path *)
  inv_nodup : NoDup (inflight w).*2;
  (** the path of a pending compile is in the compiling set *)
  inv_compiling : forall p, p ∈ (inflight w).*2 -> p ∈ compiling w;
  inv_heap : forall l f, heap w !! l = Some f -> wf_file f;
  (** the record of a pending compile is an object *)
  inv_inflight : forall x, x ∈ inflight w -> is_Some (heap w !! x.1);
}.

Lemma Inv_init : Inv init.
Proof.
  split; simpl.
  - constructor.
  - intros p Hp. by apply elem_of_nil in Hp.
  - intros l f Hl. by rewrite lookup_empty in Hl.
  - intros x Hx. by apply elem_of_nil in Hx.
Qed.

(** Statements that leave the pending compiles, the compiling set and the
    records alone keep the invariant. *)
Lemma Inv_frame w w' :
  inflight w' = inflight w -> compiling w' = compiling w ->
  heap w' = heap w -> Inv w -> Inv w'.
Proof.
  intros Hi Hc Hh [? ? ? ?]. split; rewrite ?Hi, ?Hc, ?Hh; done.
Qed.

Lemma preserves_lift {A} (c : completion A) : preserves Inv (lift c).
Proof. by intros w. Qed.

Lemma preserves_log e : preserves Inv (log e).
Proof. apply preserves_modify. intros w. by apply Inv_frame. Qed.

Lemma preserves_resetTimer : preserves Inv resetTimer.
Proof. apply preserves_modify. intros w. by apply Inv_frame. Qed.

Lemma preserves_timer_fired : preserves Inv timer_fired.
Proof.
  unfold timer_fired. apply preserves_bind.
  { apply preserves_modify. intros w. by apply Inv_frame. }
  intros _. apply preserves_bind_get. intros w HI.
  destruct (hasFiles w); [by apply preserves_resetTimer |].
  apply preserves_bind; [apply preserves_log | | done].
  intros _. apply preserves_modify. intros w'. by apply Inv_frame.
Qed.

(** *** The records *)

(** A setter that touches neither [disposed] nor the frozen state. *)
Definition keeps_flags (set : SourceFile.t -> SourceFile.t) : Prop :=
  forall f, disposed (set f) = disposed f /\ frozen (set f) = frozen f.

Lemma preserves_assign set :
  keeps_flags set -> preserves wf_file (assign set).
Proof.
  intros Hset f [Hf Hd]. unfold assign.
  destruct (frozen f) eqn:Hfr; simpl; [split; [congruence | done] |].
  destruct (Hset f) as [Hd' Hf']. split; [congruence |].
  rewrite Hd', Hf. done.
Qed.

Lemma preserves_updateCache now p error result wrap :
  preserves wf_file (updateCache now p error result wrap).
Proof.
  unfold updateCache.
  destruct error as [e|]; [| destruct result as [r|]];
    repeat first
      [ apply preserves_ret
      | apply preserves_throw
      | apply preserves_assign; by intros f
      | apply preserves_bind; [| intros _] ].
  destruct (updateMap _ _ _ _); [apply preserves_ret | apply preserves_throw].
Qed.

Lemma compile_settled_wf now c outcome f :
  wf_file f -> wf_file (compile_settled now c outcome f).2.
Proof.
  intros Hf. unfold compile_settled.
  destruct outcome as [d|e].
  - pose proof (preserves_updateCache now (replaceBackSlashes (c_path c))
                  None d (makeWrapper c) f Hf) as Hwf.
    destruct (updateCache _ _ _ _ _ f) as [[[|job]|e] f']; exact Hwf.
  - pose proof (preserves_updateCache now (replaceBackSlashes (c_path c))
                  (Some e) None (makeWrapper c) f Hf) as Hwf.
    destruct (updateCache _ _ _ _ _ f) as [[[|job]|e'] f']; exact Hwf.
Qed.

Lemma preserves_store_node n : preserves wf_file (store_node n).
Proof. apply preserves_assign. by intros f. Qed.

(** [dispose] throws on a frozen record and leaves it as it is; any other
    record ends up disposed, frozen and without dependencies. *)
Lemma dispose_result f :
  (dispose f).2 =
  if frozen f then f
  else freeze (set_error None (set_node None (set_disposed true
         (set_dependencies (Some []) (set_data (Some "")
            (set_path "" f)))))).
Proof.
  unfold dispose, mbind, M_bind, assign, modify.
  destruct (frozen f) eqn:Hf; repeat (cbn; rewrite ?Hf); done.
Qed.

Lemma preserves_dispose : preserves wf_file dispose.
Proof.
  intros f Hf. rewrite dispose_result.
  destruct (frozen f); [done |]. by split.
Qed.

Lemma new_wf p compiler linters wrapper isHelper isVendor :
  wf_file (SourceFile.new p compiler linters wrapper isHelper isVendor).
Proof. by split. Qed.

(** *** The list *)

Lemma preserves_on_file {A} file (m : M SourceFile.t A) :
  preserves wf_file m -> preserves Inv (on_file file m).
Proof.
  intros Hm w [Hn Hc Hh Hi]. unfold on_file.
  destruct (heap w !! file) as [f|] eqn:Hl; [| by split].
  specialize (Hm f (Hh _ _ Hl)). destruct (m f) as [r f']. cbn in *.
  split; cbn; [done | done | |].
  - intros l g. rewrite lookup_insert. case_decide; [| by apply Hh].
    by intros [= <-].
  - intros x Hx. rewrite lookup_insert. case_decide; [done | by apply Hi].
Qed.

(** A compile is started only for a path that is not in the compiling
    set, so not for the path of a pending compile. *)
Lemma preserves_compile file : preserves Inv (compile file).
Proof.
  unfold compile. apply preserves_bind.
  { apply preserves_on_file. apply preserves_gets. }
  intros p. apply preserves_bind.
  { apply preserves_on_file. apply preserves_assign. by intros f. }
  intros _. apply preserves_bind_get. intros w HI.
  case_bool_decide as Hp; [by apply preserves_resetTimer |].
  unfold call_compile, mbind, M_bind, modify, on_file, get, log. cbn.
  destruct (heap w !! file) as [f|] eqn:Hl; cbn.
  - rewrite insert_id by done.
    destruct HI as [Hn Hc Hh Hi]. split; cbn.
    + rewrite fmap_app. apply NoDup_app. split; [done |]. split.
      * intros q Hq Hq'. apply list_elem_of_singleton in Hq' as ->.
        by apply Hp, Hc.
      * apply NoDup_singleton.
    + intros q. rewrite fmap_app, elem_of_app. cbn.
      rewrite list_elem_of_singleton. intros [Hq| ->]; [| set_solver].
      apply Hc in Hq. set_solver.
    + done.
    + intros x. rewrite elem_of_app, list_elem_of_singleton.
      intros [Hx| ->]; [by apply Hi | cbn; by rewrite Hl].
  - destruct HI as [Hn Hc Hh Hi]. split; cbn; try done.
    intros q Hq. apply Hc in Hq. set_solver.
Qed.

Lemma preserves_compileDependencyParents p :
  preserves Inv (compileDependencyParents p).
Proof.
  unfold compileDependencyParents. apply preserves_bind_get. intros w HI.
  destruct (Nat.eqb _ 0); [done |].
  apply preserves_bind; [apply preserves_log | | done].
  intros _. apply preserves_forEach. intros l _. apply preserves_compile.
Qed.

Lemma preserves_copy asset : preserves Inv (copy asset).
Proof.
  unfold copy. apply preserves_bind_get. intros w HI.
  destruct (asset_heap w !! asset) as [a|]; [| done].
  revert w HI.
  repeat first
    [ apply preserves_log
    | apply preserves_modify; intros w; by apply Inv_frame
    | apply preserves_bind; [| intros _] ].
Qed.

Lemma preserves_resetCopy p : preserves Inv (resetCopy p).
Proof.
  unfold resetCopy. apply preserves_bind; [| intros _; apply preserves_resetTimer].
  apply preserves_modify. intros w. by apply Inv_frame.
Qed.

Lemma preserves_add p compiler linters isHelper :
  preserves Inv (_add cfg p compiler linters isHelper).
Proof.
  unfold _add. apply preserves_bind; [apply preserves_lift |].
  intros isVendor. apply preserves_bind_get. intros w [Hn Hc Hh Hi].
  unfold mbind, M_bind, modify, mret, M_ret. cbn.
  assert (heap w !! fresh (dom (heap w)) = None) as Hfresh.
  { apply not_elem_of_dom. apply is_fresh. }
  split; cbn; [done | done | |].
  - intros l f. rewrite lookup_insert. case_decide; [| by apply Hh].
    intros [= <-]. apply new_wf.
  - intros x Hx. rewrite lookup_insert. case_decide; [done | by apply Hi].
Qed.

Lemma preserves_addAsset p : preserves Inv (_addAsset p).
Proof.
  unfold _addAsset. apply preserves_bind_get. intros w HI.
  unfold mbind, M_bind, modify, mret, M_ret. cbn. revert HI.
  by apply Inv_frame.
Qed.

Lemma preserves_change p compiler linters isHelper :
  preserves Inv (_change cfg stack p compiler linters isHelper).
Proof.
  unfold _change. apply preserves_bind; [apply preserves_lift |].
  intros ignored. apply preserves_bind; [apply preserves_lift |].
  intros [|].
  - destruct (negb ignored); [| apply preserves_ret].
    apply preserves_bind_get. intros w HI.
    apply preserves_bind; [| intros a; apply preserves_copy | done].
    destruct (findAsset w p); [apply preserves_ret | apply preserves_addAsset].
  - repeat first
      [ apply preserves_log
      | apply preserves_modify; intros w; by apply Inv_frame
      | apply preserves_bind; [| intros _] ].
Qed.

Lemma preserves_change_read r error :
  preserves Inv (change_read cfg r error).
Proof.
  unfold change_read. destruct error as [e|]; [apply preserves_throw |].
  apply preserves_bind.
  { unfold compile_changed. destruct (_ || _); [| apply preserves_ret].
    apply preserves_bind_get. intros w HI.
    apply preserves_bind; [| intros a; apply preserves_compile | done].
    destruct (find w (read_path r)); [apply preserves_ret |].
    apply preserves_add. }
  intros _. apply preserves_bind_get. intros w HI.
  apply preserves_bind; [| intros _; apply preserves_resetTimer | done].
  destruct (negb (initial w)); [| apply preserves_ret].
  apply preserves_compileDependencyParents.
Qed.

Lemma preserves_unlink p : preserves Inv (_unlink cfg stack p).
Proof.
  unfold _unlink. apply preserves_bind; [apply preserves_lift |].
  intros ignored. apply preserves_bind; [apply preserves_lift |].
  intros isAsset.
  apply preserves_bind; [| intros _; apply preserves_resetTimer].
  destruct isAsset.
  - destruct (negb ignored); [| apply preserves_ret].
    apply preserves_modify. intros w. by apply Inv_frame.
  - destruct ignored; [apply preserves_compileDependencyParents |].
    apply preserves_bind_get. intros w HI.
    destruct (find w p) as [file|]; [| done].
    destruct (negb (is_disposed w file)); [| done].
    apply preserves_on_file; [| done]. apply preserves_assign. by intros f.
Qed.

(** The continuations of [compile] take the path out of the compiling
    set: that keeps the invariant once the compile is no longer pending. *)
Lemma compile_then_Inv p settlement w :
  NoDup (inflight w).*2 ->
  (forall q, q ∈ (inflight w).*2 -> q ∈ compiling w /\ q ≠ p) ->
  (forall l f, heap w !! l = Some f -> wf_file f) ->
  (forall x, x ∈ inflight w -> is_Some (heap w !! x.1)) ->
  Inv (compile_then p settlement w).2.
Proof.
  intros Hn Hc Hh Hi.
  assert (Inv (reset p w).2) as HI.
  { unfold reset, mbind, M_bind, modify, resetTimer. cbn.
    split; cbn; [done | | done | done].
    intros q Hq. destruct (Hc q Hq) as [Hq1 Hq2].
    apply elem_of_difference. split; [done |].
    by rewrite elem_of_singleton. }
  unfold compile_then.
  assert (preserves Inv (mark_compiled p)) as Hmark.
  { unfold mark_compiled.
    repeat first
      [ apply preserves_log
      | apply preserves_modify; intros w'; by apply Inv_frame
      | apply preserves_bind; [| intros _] ]. }
  destruct settlement as [v|e]; unfold mbind, M_bind;
    destruct (reset p w) as [[[]|e'] w'] eqn:Hr; cbn in *;
    solve [by apply Hmark | done].
Qed.

Lemma preserves_handle ev : preserves Inv (handle cfg stack ev).
Proof.
  destruct ev as [p compiler linters isHelper|p|i error|i now outcome|i|h
                 |i order readFile|file|]; simpl.
  - apply preserves_change.
  - apply preserves_unlink.
  - apply preserves_bind_get. intros w HI.
    destruct (reads w !! i) as [r|]; [| done].
    apply preserves_bind; [| intros _; apply preserves_change_read
                           | done].
    apply preserves_modify. intros w'. by apply Inv_frame.
  - apply preserves_bind_get. intros w [Hn Hc Hh Hin].
    destruct (inflight w !! i) as [[file p]|] eqn:Hi; [| done].
    assert (NoDup (delete i (inflight w)).*2) as Hn1.
    { rewrite list_fmap_delete.
      eapply sublist_NoDup; [done | apply sublist_delete]. }
    assert (forall q, q ∈ (delete i (inflight w)).*2 ->
              q ∈ compiling w /\ q ≠ p) as Hc1.
    { intros q Hq. rewrite list_fmap_delete in Hq. split.
      - apply Hc. eapply elem_of_sublist; [done | apply sublist_delete].
      - intros ->.
        assert ((inflight w).*2 !! i = Some p) as Hip
          by (by rewrite list_lookup_fmap, Hi).
        by apply (NoDup_delete_not_elem _ _ _ Hn Hip). }
    assert (forall x, x ∈ delete i (inflight w) -> is_Some (heap w !! x.1))
      as Hin1.
    { intros x Hx. apply Hin.
      eapply elem_of_sublist; [done | apply sublist_delete]. }
    unfold mbind, M_bind, modify, file_compile_settled. cbn.
    destruct (heap w !! file) as [f|] eqn:Hl.
    + destruct (compile_settled now (SourceFile.compile f) outcome f)
        as [[settlement job] f'] eqn:Hs. cbn.
      apply compile_then_Inv; cbn; try done.
      * intros l g. rewrite lookup_insert. case_decide; [| by apply Hh].
        intros [= <-].
        pose proof (compile_settled_wf now (SourceFile.compile f) outcome f
                      (Hh _ _ Hl)) as Hwf. by rewrite Hs in Hwf.
      * intros x Hx. rewrite lookup_insert. case_decide; [done |].
        by apply Hin1.
    + cbn. split; cbn; try done. intros q Hq. by apply Hc1.
  - apply preserves_bind_get. intros w HI.
    destruct (copies w !! i) as [[a p]|]; [| done].
    apply preserves_bind; [| intros _; apply preserves_resetCopy | done].
    apply preserves_modify. intros w'. by apply Inv_frame.
  - apply preserves_bind_get. intros w HI.
    case_bool_decide; [| done].
    apply preserves_bind; [| intros _; apply preserves_timer_fired | done].
    apply preserves_modify. intros w'. by apply Inv_frame.
  - apply preserves_bind_get. intros w HI.
    destruct (jobs w !! i) as [[file job]|]; [| done].
    case_bool_decide; [| done].
    apply preserves_bind; [| intros _ | done].
    { apply preserves_modify. intros w'. by apply Inv_frame. }
    destruct (settle_reads _ _ _); [| apply preserves_ret].
    apply preserves_on_file, preserves_store_node.
  - apply preserves_on_file, preserves_dispose.
  - apply preserves_modify. intros w. by apply Inv_frame.
Qed.

(** Every reachable state satisfies the invariant. *)
Lemma reachable_Inv w : reachable cfg stack w -> Inv w.
Proof.
  induction 1 as [|ev w Hw IH]; [apply Inv_init |].
  by apply preserves_handle.
Qed.

End Invariant.

(** Every run is reachable. *)
Lemma reachable_run evs :
  reachable (H := sample_externals) sample_cfg sample_stack (run evs).
Proof.
  unfold run. generalize init (reachable_init (H := sample_externals)
                                 sample_cfg sample_stack).
  induction evs as [|ev evs IH]; intros w Hw; simpl; [done |].
  apply IH. by apply reachable_step.
Qed.

(** ** [compile] while the path is compiling *)
Section CompileTwice.
Context `{Externals}.
Variable cfg : Config.
Variable stack : nat.

Lemma set_heap_same w : set_heap (heap w) w = w.
Proof. by destruct w. Qed.

(** The timer after [resetTimer]: the timeout set before is cleared and a
    new one, with a new handle, is the only one this call leaves added. *)
Definition timer_reset (w w' : World) : Prop :=
  timer w' = Some (timer_count w)
  /\ timeouts w' = match timer w with
                   | Some h => timeouts w ∖ {[h]}
                   | None => timeouts w
                   end ∪ {[timer_count w]}
  /\ timer_count w' = Datatypes.S (timer_count w).

(** What [compile] does with a record whose path is in the compiling set:
    the record, if it is not frozen, has [removed] set to false, and nothing
    else changes but the timer. On a frozen record the assignment throws and
    nothing changes at all. *)
Lemma compile_compiling w file f :
  heap w !! file = Some f -> path f ∈ compiling w ->
  compile file w =
  if frozen f
  then (Throw (TypeError "Cannot assign to read only property"), w)
  else (Normal tt,
        (resetTimer
           (set_heap (<[file := set_removed false f]> (heap w)) w)).2).
Proof.
  intros Hl Hp. unfold compile, mbind, M_bind, on_file, gets, assign, get.
  rewrite Hl. cbn. rewrite lookup_insert_eq. cbn.
  destruct (frozen f) eqn:Hf; cbn.
  - rewrite insert_insert_eq, insert_id by done. by rewrite !set_heap_same.
  - rewrite insert_insert_eq. by rewrite bool_decide_true.
Qed.

(** C2, as the code has it: [compile(record)] clears [removed] before it
    looks at the compiling set, so also when the path is already in it. In
    that branch the rest of the record, the compiling set, the
    compiled-this-build map and the pending compiles are unchanged, no
    pipeline is called, and the timer is reset. A frozen record makes the
    call throw before anything changes. *)
Theorem compile_while_compiling w file f :
  heap w !! file = Some f -> path f ∈ compiling w ->
  (frozen f = false ->
     let w' := (compile file w).2 in
     (compile file w).1 = Normal tt
     /\ heap w' = <[file := set_removed false f]> (heap w)
     /\ compiling w' = compiling w /\ compiled w' = compiled w
     /\ inflight w' = inflight w /\ trace w' = trace w
     /\ files w' = files w /\ timer_reset w w')
  /\ (frozen f = true ->
        exists e, compile file w = (Throw e, w)).
Proof.
  intros Hl Hp. rewrite (compile_compiling w file f Hl Hp).
  split; intros ->; cbn; [| eauto].
  by repeat split.
Qed.

(** C1: in a reachable state, [compile] on a record whose path is in the
    compiling set calls no pipeline (the trace and the pending compiles are
    as before) and leaves the compiling set as it is; and no two pending
    compiles have the same path, each path of one being in the compiling
    set. *)
Theorem one_compile_in_flight w :
  reachable cfg stack w ->
  (forall file f, heap w !! file = Some f -> path f ∈ compiling w ->
     inflight (compile file w).2 = inflight w
     /\ trace (compile file w).2 = trace w
     /\ compiling (compile file w).2 = compiling w
     /\ size (compiling (compile file w).2) = size (compiling w))
  /\ NoDup (inflight w).*2
  /\ (forall p, p ∈ (inflight w).*2 -> p ∈ compiling w).
Proof.
  intros Hw. apply reachable_Inv in Hw as [Hn Hc _ _].
  split; [| done].
  intros file f Hl Hp. rewrite (compile_compiling w file f Hl Hp).
  by destruct (frozen f).
Qed.

(** C7: when a pending compile settles, whether the pipeline resolved or
    rejected, the handler ends normally, the path is no longer in the
    compiling set, the timer is reset, the path is marked in the
    compiled-this-build map, and [compiled] is emitted with the path. The
    continuations of [compile] do the same for a fulfilled and for a
    rejected promise of the record, and end normally for both. *)
Theorem compile_settles_either_way w i file p now outcome :
  reachable cfg stack w -> inflight w !! i = Some (file, p) ->
  let w' := (handle cfg stack (PipelineSettled i now outcome) w).2 in
  (handle cfg stack (PipelineSettled i now outcome) w).1 = Normal tt
  /\ compiling w' = compiling w ∖ {[p]}
  /\ (p ∉ compiling w')
  /\ timer_reset w w'
  /\ compiled w' = <[p := true]> (compiled w)
  /\ trace w' = [Emit "compiled" (Some p); Debug ("Compiled " +:+ p)]
                  ++ trace w
  /\ inflight w' = delete i (inflight w)
  /\ (forall settlement w0,
        (compile_then p settlement w0).1 = Normal tt
        /\ compile_then p settlement w0 = compile_then p (Fulfilled tt) w0).
Proof.
  intros Hw Hi. apply reachable_Inv in Hw as [_ _ _ Hin].
  destruct (Hin (file, p)) as [f Hl];
    [by apply list_elem_of_lookup_2 in Hi |].
  cbn in Hl. cbn.
  unfold mbind, M_bind, get, modify, file_compile_settled. rewrite Hi. cbn.
  rewrite Hl.
  destruct (compile_settled now (SourceFile.compile f) outcome f)
    as [[settlement job] f'].
  assert (forall settlement w0,
            (compile_then p settlement w0).1 = Normal tt
            /\ compile_then p settlement w0
               = compile_then p (Fulfilled tt) w0) as Hsame.
  { by intros [[]|e] w0. }
  refine (conj _ (conj _ (conj _ (conj _ (conj _ (conj _ (conj _ Hsame)))))));
    unfold compile_then, reset, mark_compiled, debug, emit, log, resetTimer,
      timer_reset, mbind, M_bind, modify;
    destruct settlement as [v|e]; cbn; try done;
    rewrite elem_of_difference, elem_of_singleton; tauto.
Qed.

End CompileTwice.

(** C2, as stated, fails: the record of [app/a.js] was marked removed while
    its compile is pending; [compile] on it, with the path in the compiling
    set, clears the flag. *)
Lemma compile_clears_removed_while_compiling :
  let w := removed_while_compiling in
  removed <$> (heap w !! 0%nat) = Some true
  /\ path <$> (heap w !! 0%nat) = Some "app/a.js"
  /\ bool_decide ("app/a.js" ∈ compiling w) = true
  /\ removed <$> (heap (compile 0%nat w).2 !! 0%nat) = Some false.
Proof. by vm_compute. Qed.

(** ** The cascade to dependents *)
Section Cascade.
Context `{Externals}.
Variable cfg : Config.
Variable stack : nat.







End Cascade.

(** ** The properties at concrete states *)

Lemma removed_a_compiling :
  heap removed_while_compiling !! 0%nat = Some removed_a
  /\ path removed_a ∈ compiling removed_while_compiling.
Proof.
  split; [by vm_compute |].
  apply (bool_decide_unpack _). by vm_compute.
Defined.

Lemma compile_while_compiling_witness :
  let w := removed_while_compiling in
  heap w !! 0%nat = Some removed_a /\ path removed_a ∈ compiling w
  /\ frozen removed_a = false
  /\ (compile 0%nat w).1 = Normal tt
  /\ heap (compile 0%nat w).2
     = <[0%nat := set_removed false removed_a]> (heap w)
  /\ compiling (compile 0%nat w).2 = compiling w.
Proof.
  intros w. destruct removed_a_compiling as [Hl Hp].
  split; [exact Hl |]. split; [exact Hp |]. split; [reflexivity |].
  destruct (proj1 (compile_while_compiling w 0%nat removed_a Hl Hp) eq_refl)
    as (Hr & Hh & Hc & _).
  exact (conj Hr (conj Hh Hc)).
Defined.

Lemma one_compile_in_flight_witness :
  let w := removed_while_compiling in
  reachable (H := sample_externals) sample_cfg sample_stack w
  /\ inflight (compile 0%nat w).2 = inflight w
  /\ trace (compile 0%nat w).2 = trace w
  /\ NoDup (inflight w).*2.
Proof.
  intros w.
  pose proof (reachable_run (compiling_a ++ [Unlink "app/a.js"])) as Hw.
  destruct (one_compile_in_flight (H := sample_externals)
              sample_cfg sample_stack w Hw) as (Hc & Hn & _).
  destruct removed_a_compiling as [Hl Hp].
  destruct (Hc 0%nat removed_a Hl Hp) as (Hi & Ht & _).
  exact (conj Hw (conj Hi (conj Ht Hn))).
Defined.

Lemma compile_settles_either_way_witness :
  let w := run compiling_a in
  let r := handle (H := sample_externals) sample_cfg sample_stack
             (PipelineSettled 0 1000 (Rejected (PlainError "syntax error")))
             w in
  reachable (H := sample_externals) sample_cfg sample_stack w
  /\ inflight w !! 0%nat = Some (0%nat, "app/a.js")
  /\ r.1 = Normal tt /\ ("app/a.js" ∉ compiling r.2)
  /\ compiled r.2 = <["app/a.js" := true]> (compiled w)
  /\ trace r.2 = [Emit "compiled" (Some "app/a.js");
                   Debug "Compiled app/a.js"] ++ trace w.
Proof.
  intros w r.
  pose proof (reachable_run compiling_a) as Hw.
  assert (inflight w !! 0%nat = Some (0%nat, "app/a.js")) as Hi
    by (vm_compute; reflexivity).
  destruct (compile_settles_either_way (H := sample_externals)
              sample_cfg sample_stack w 0%nat 0%nat "app/a.js" 1000
              (Rejected (PlainError "syntax error")) Hw Hi)
    as (Hr & _ & Hc & _ & Hm & Ht & _).
  exact (conj Hw (conj Hi (conj Hr (conj Hc (conj Hm Ht))))).
Defined.

(** While the first build is going on ([initial] is true), the unlink of
    the ignored [tmp/x.scss] calls the pipeline for [app/a.js], which
    depends on it; a change of [tmp/x.scss] does not. *)
Example unlink_compiles_dependent_change_does_not :
  let w := a_depends_on_x in
  initial w = true
  /\ head (trace (step (H := sample_externals) sample_cfg sample_stack
                    (Unlink "tmp/x.scss") w))
     = Some (CallPipeline 0%nat "app/a.js")
  /\ trace (run (compiling_a ++
                 [PipelineSettled 0 1000
                    (Fulfilled (Some {| pr_source := "x = 1";
                                        pr_compiled := "var x=1;";
                                        pr_dependencies := Some ["tmp/x.scss"];
                                        pr_sourceMap := None |}));
                  TimeoutFired 1;
                  Change "tmp/x.scss" None [] false; ReadDone 0 None]))
     = [CallUpdateCache "tmp/x.scss"; Debug "Reading tmp/x.scss"] ++ trace w.
Proof. by vm_compute. Qed.

(** ** The sources of a supplied map *)
Section MapSources.
Context `{Externals}.


(** With a map in string form, no content is read: the sources are looked
    up on the string, which has none. *)
Lemma updateMap_string_reads p compiled wrapped json job :
  updateMap p compiled wrapped (Some (MapString json)) = Normal job ->
  job_reads job = [].
Proof.
  unfold updateMap. destruct wrapped as [w|prefix suffix data]; cbn;
    destruct (truthy_string json); try destruct (JSON_parse _);
    by intros [= <-].
Qed.

(** Once the reads have settled, in whatever order, the node has the
    content read for each of their paths, and what it had for the others. *)
Lemma settle_reads_contents readFile order node node' :
  settle_reads readFile order node = Some node' ->
  forall p,
    SourceNode.sourceContents node' !! p
    = if decide (p ∈ order) then readFile p
      else SourceNode.sourceContents node !! p.
Proof.
  revert node. induction order as [|q order IH]; intros node Hs p.
  - injection Hs as <-. case_decide as Hin; [| done].
    by apply elem_of_nil in Hin.
  - cbn [settle_reads] in Hs.
    destruct (readFile q) as [c|] eqn:Hq; [| done].
    rewrite (IH _ Hs p). unfold addSource. cbn [SourceNode.sourceContents
      SourceNode.setSourceContent].
    destruct (decide (p = q)) as [->|Hne].
    + rewrite lookup_insert_eq.
      destruct (decide (q ∈ q :: order)) as [_|Hn];
        [| exfalso; apply Hn; left].
      case_decide; [done | by rewrite Hq].
    + rewrite lookup_insert_ne by done.
      destruct (decide (p ∈ order)) as [Hin|Hin];
        destruct (decide (p ∈ q :: order)) as [Hin'|Hin']; try done.
      * exfalso. apply Hin'. by right.
      * apply elem_of_cons in Hin' as [?|?]; done.
Qed.

Lemma settle_reads_text readFile order node node' :
  settle_reads readFile order node = Some node' ->
  SourceNode.children node' = SourceNode.children node
  /\ SourceNode.isIdentity node' = SourceNode.isIdentity node
  /\ SourceNode.source node' = SourceNode.source node.
Proof.
  revert node. induction order as [|q order IH]; intros node; simpl.
  - by intros [= <-].
  - destruct (readFile q) as [c|]; [| done]. intros Hs.
    by destruct (IH _ Hs) as (-> & -> & ->).
Qed.

(** The reads settle with a node exactly when none of them is rejected. *)
Lemma settle_reads_resolves readFile order node :
  is_Some (settle_reads readFile order node)
  <-> forall p, p ∈ order -> is_Some (readFile p).
Proof.
  revert node. induction order as [|q order IH]; intros node; simpl.
  - split; [| by eexists]. intros _ p Hp. by apply elem_of_nil in Hp.
  - destruct (readFile q) as [c|] eqn:Hq.
    + rewrite IH. split.
      * intros Hall p Hp. apply elem_of_cons in Hp as [->|Hp];
          [by rewrite Hq | by apply Hall].
      * intros Hall p Hp. apply Hall. by right.
    + split; [by intros [? ?] |]. intros Hall.
      specialize (Hall q ltac:(left)). rewrite Hq in Hall.
      by destruct Hall.
Qed.

(** The order in which the reads settle does not matter for the node. *)
Lemma settle_reads_any_order readFile order order' node node' :
  order ≡ₚ order' ->
  settle_reads readFile order node = Some node' ->
  exists node'',
    settle_reads readFile order' node = Some node''
    /\ SourceNode.sourceContents node'' = SourceNode.sourceContents node'
    /\ SourceNode.toString node'' = SourceNode.toString node'.
Proof.
  intros Hperm Hs.
  destruct (proj2 (settle_reads_resolves readFile order' node)) as [n Hn].
  { intros p Hp. rewrite <- Hperm in Hp.
    by apply (proj1 (settle_reads_resolves readFile order node)); [eexists |]. }
  exists n. split; [done |]. split.
  - apply map_eq. intros p.
    rewrite (settle_reads_contents _ _ _ _ Hn p),
      (settle_reads_contents _ _ _ _ Hs p).
    destruct (decide (p ∈ order')) as [Hin|Hin];
      destruct (decide (p ∈ order)) as [Hin'|Hin']; try done;
      exfalso; [apply Hin' | apply Hin]; by rewrite ?Hperm in *.
  - unfold SourceNode.toString.
    destruct (settle_reads_text _ _ _ _ Hn) as (-> & _).
    by destruct (settle_reads_text _ _ _ _ Hs) as (-> & _).
Qed.

End MapSources.

(** C5, on the code: for a pipeline result whose source map is the JSON
    text of a map that lists [a.js] and [b.js], [updateMap] reads no
    content at all, and its node has none for [a.js]; for the same map in
    object form it reads both. *)
Theorem string_map_sources_are_not_read :
  exists job job',
    updateMap (H := sample_externals) "app/a.js" "var x=1;"
      (WString "var x=1;") (Some (MapString sample_json)) = Normal job
    /\ job_reads job = []
    /\ SourceNode.sourceContents (job_node job) !! "a.js" = None
    /\ JSON_parse (Externals := sample_externals) sample_json
       = Some sample_map
    /\ updateMap (H := sample_externals) "app/a.js" "var x=1;"
         (WString "var x=1;") (Some (MapObject sample_map)) = Normal job'
    /\ job_reads job' = ["a.js"; "b.js"].
Proof. do 2 eexists. by vm_compute. Qed.

(** * Further properties of the two files *)

(** ** [isIgnored] and the stack *)
Section IsIgnoredStack.
Context `{Externals}.
Variable cfg : Config.

(** X1: when no list of the [ignored] convention has a falsy element,
    [isIgnored] returns for every path and every rule once the stack is
    deeper than the rule and the convention are nested, and a deeper stack
    gives the same answer. *)
Theorem call_isIgnored_returns stack p test :
  elements_truthy (default undefined (conventions cfg !! "ignored")) = true ->
  (rule_depth test
   + rule_depth (default undefined (conventions cfg !! "ignored")) + 1
   < stack)%nat ->
  exists b,
    call_isIgnored cfg stack p test = Normal b
    /\ forall stack', (stack <= stack')%nat ->
         call_isIgnored cfg stack' p test = Normal b.
Proof.
  intros Hd Hstack.
  destruct (isIgnored_returns cfg p test Hd stack Hstack) as [b Hb].
  exists b. unfold call_isIgnored. rewrite Hb. split; [done |].
  intros stack' Hle. by rewrite (isIgnored_mono cfg stack stack' p test b).
Qed.

(** X2: when the [ignored] convention is a list whose first element is
    falsy, [isIgnored] with a falsy rule (or none) never returns for a path
    that is neither in the package namespace nor a configuration file: the
    element is replaced by the convention again and again, and the call ends
    in a [RangeError] whatever the depth of the stack. *)
Theorem call_isIgnored_overflows stack p test x l :
  conventions cfg !! "ignored" = Some (RArray (x :: l)) ->
  truthy x = false -> truthy test = false ->
  isNpm p = false -> p ∉ configPaths cfg ->
  call_isIgnored cfg stack p test
  = Throw (RangeError "Maximum call stack size exceeded").
Proof.
  intros Hd Hx Htest Hnpm Hcfg. unfold call_isIgnored.
  assert (forall n y, truthy y = false -> isIgnored cfg n p y = None) as Hnone.
  { induction n as [|n IH]; intros y Hy; [done |].
    rewrite isIgnored_S, Hnpm, bool_decide_false by done.
    unfold effective_rule. rewrite Hy, Hd. simpl. by rewrite (IH x Hx). }
  by rewrite Hnone.
Qed.

End IsIgnoredStack.

Lemma call_isIgnored_returns_witness :
  exists b,
    call_isIgnored (H := sample_externals) sample_cfg 64 "app/a.js"
      nested_rule = Normal b
    /\ forall stack', (64 <= stack')%nat ->
         call_isIgnored (H := sample_externals) sample_cfg stack' "app/a.js"
           nested_rule = Normal b.
Proof.
  apply (call_isIgnored_returns (H := sample_externals) sample_cfg 64
           "app/a.js" nested_rule); [reflexivity | vm_compute; lia].
Defined.

Lemma call_isIgnored_overflows_witness :
  call_isIgnored (H := sample_externals) ignore_list_with_empty 1000
    "app/a.js" undefined
  = Throw (RangeError "Maximum call stack size exceeded").
Proof.
  apply (call_isIgnored_overflows (H := sample_externals)
           ignore_list_with_empty 1000 "app/a.js" undefined (RString "")
           [RFunction (String.prefix "tmp/")]);
    [by vm_compute | reflexivity | reflexivity | reflexivity |].
  apply (proj1 (bool_decide_eq_false _)). by vm_compute.
Defined.

(** ** The records once more *)
Section Records.
Context `{Externals}.

(** X3: [dispose] on a record that is not frozen ends normally and leaves
    it with an empty path, empty data, no dependencies, no node and no
    error, disposed and frozen; [source], [type] and [removed] are not
    touched. From then on the record cannot change: [updateCache] (for any
    outcome of the pipeline) and a second [dispose] throw, the node of a
    composition that was under way is not stored, and the record stays as it
    is. *)
Theorem dispose_is_terminal f :
  frozen f = false ->
  let d := (dispose f).2 in
  (dispose f).1 = Normal tt
  /\ path d = "" /\ data d = Some "" /\ dependencies d = Some []
  /\ node d = None /\ error d = None
  /\ disposed d = true /\ frozen d = true
  /\ SourceFile.source d = SourceFile.source f /\ type d = type f
  /\ removed d = removed f
  /\ (forall now p e r wrap,
        exists ex, updateCache now p e r wrap d = (Throw ex, d))
  /\ (forall now c outcome, (compile_settled now c outcome d).2 = d)
  /\ (forall n, exists ex, store_node n d = (Throw ex, d))
  /\ (exists ex, dispose d = (Throw ex, d)).
Proof.
  intros Hf d.
  assert ((dispose f).1 = Normal tt) as Hd.
  { unfold dispose, mbind, M_bind, assign, modify.
    by repeat (cbn; rewrite ?Hf). }
  assert (d = freeze (set_error None (set_node None (set_disposed true
                (set_dependencies (Some []) (set_data (Some "")
                   (set_path "" f))))))) as Hdd.
  { unfold d. by rewrite dispose_result, Hf. }
  assert (frozen d = true) as Hfr by (by rewrite Hdd).
  split; [done |]. clear Hd.
  do 10 (split; [by rewrite Hdd |]). clearbody d. clear Hdd.
  split; [| split; [| split]].
  - intros now p e r wrap. by apply updateCache_frozen.
  - intros now c outcome. unfold compile_settled.
    destruct outcome as [v|e].
    + by destruct (updateCache_frozen now (replaceBackSlashes (c_path c))
                     None v (makeWrapper c) d Hfr) as [ex ->].
    + by destruct (updateCache_frozen now (replaceBackSlashes (c_path c))
                     (Some e) None (makeWrapper c) d Hfr) as [ex ->].
  - intros n. unfold store_node, assign. rewrite Hfr. by eexists.
  - unfold dispose, mbind, M_bind, assign. rewrite Hfr. by eexists.
Qed.

End Records.

Lemma dispose_is_terminal_witness :
  let d := (dispose compiled_file).2 in
  path d = "" /\ node d = None /\ disposed d = true
  /\ (compile_settled (H := sample_externals) 2000
        (SourceFile.compile compiled_file)
        (Fulfilled (Some {| pr_source := "y = 2"; pr_compiled := "var y=2;";
                            pr_dependencies := None; pr_sourceMap := None |}))
        d).2 = d.
Proof.
  intros d.
  destruct (dispose_is_terminal (H := sample_externals) compiled_file eq_refl)
    as (_ & Hp & _ & _ & Hn & _ & Hd & _ & _ & _ & _ & _ & Hc & _).
  exact (conj Hp (conj Hn (conj Hd (Hc _ _ _)))).
Defined.

(** ** Map composition once more *)
Section Composition.
Context `{Externals}.

Lemma prefix_refl s : String.prefix s s = true.
Proof.
  induction s as [|a s IH]; simpl; [done |].
  by destruct (ascii_dec a a).
Qed.

Lemma indexOf_self s : indexOf s s = 0.
Proof.
  unfold indexOf. destruct s as [|a s]; [done |].
  by rewrite indexOf_from_cons, prefix_refl.
Qed.

Lemma toString_prepend_opt prefix n :
  SourceNode.toString
    (if truthy_opt prefix
     then SourceNode.prepend (default "" prefix) n else n)
  = default "" prefix +:+ SourceNode.toString n.
Proof. destruct prefix as [s|]; [apply toString_prepend_truthy | done]. Qed.

Lemma toString_add_opt suffix n :
  SourceNode.toString
    (if truthy_opt suffix
     then SourceNode.add (default "" suffix) n else n)
  = SourceNode.toString n +:+ default "" suffix.
Proof.
  destruct suffix as [s|]; [apply toString_add_truthy |].
  simpl. by rewrite append_empty_r.
Qed.

(** The content the node is built from. *)
Definition wrapper_content (compiled : string) (wrapped : Wrapped) : string :=
  match wrapped with
  | WObject _ _ data => if truthy_opt data then default "" data else compiled
  | WString w => if 0 <? indexOf w compiled then compiled else w
  end.

(** What [updateMap] builds before it adds prefix and suffix: a node that
    renders the content. *)
Lemma updateMap_inversion p compiled wrapped sourceMap job :
  updateMap p compiled wrapped sourceMap = Normal job ->
  exists n prefix suffix,
    SourceNode.toString n = wrapper_content compiled wrapped
    /\ (sourceMap = None -> n = identityNode (wrapper_content compiled wrapped) p)
    /\ (prefix, suffix)
       = match wrapped with
         | WObject prefix suffix _ => (prefix, suffix)
         | WString w =>
             (Some (slice w 0 (indexOf w compiled)),
              Some (slice_from w (indexOf w compiled + strlen compiled)))
         end
    /\ job_node job
       = SourceNode.setSourceContent p (wrapper_content compiled wrapped)
           (SourceNode.set_source p
              (let n1 := SourceNode.set_isIdentity
                           (match sourceMap with
                            | None => true
                            | Some _ => false
                            end) n in
               let n2 := if truthy_opt prefix
                         then SourceNode.prepend (default "" prefix) n1
                         else n1 in
               if truthy_opt suffix
               then SourceNode.add (default "" suffix) n2 else n2)).
Proof.
  unfold updateMap.
  set (content := wrapper_content compiled wrapped).
  set (parts := match wrapped with WObject _ _ _ => _ | WString _ => _ end).
  assert (parts = (match wrapped with
                   | WObject prefix suffix _ => (prefix, suffix)
                   | WString w =>
                       (Some (slice w 0 (indexOf w compiled)),
                        Some (slice_from w (indexOf w compiled
                                            + strlen compiled)))
                   end, content)) as ->.
  { unfold parts, content. by destruct wrapped. }
  destruct (match wrapped with
            | WObject prefix suffix _ => (prefix, suffix)
            | WString w => _
            end) as [prefix suffix] eqn:Hparts.
  cbv beta iota zeta.
  set (built := if truthy_map sourceMap then _ else _).
  assert (forall n sm, built = Normal (n, sm) ->
            SourceNode.toString n = content
            /\ (sourceMap = None -> n = identityNode content p)
            /\ (match sm with None => true | Some _ => false end
                = match sourceMap with None => true | Some _ => false end))
    as Hbuilt.
  { intros n sm. subst built.
    destruct sourceMap as [[json|m]|]; cbn [truthy_map].
    - destruct (truthy_string json).
      + destruct (JSON_parse _); [| done]. intros [= <- <-].
        split; [apply toString_fromStringWithSourceMap | done].
      + intros [= <- <-]. split; [apply toString_identityNode | done].
    - intros [= <- <-].
      split; [apply toString_fromStringWithSourceMap | done].
    - intros [= <- <-]. split; [apply toString_identityNode | done]. }
  destruct built as [[n sm]|e]; [| done].
  destruct (Hbuilt n sm eq_refl) as (Htext & Hid & Htag).
  intros [= <-]. exists n, prefix, suffix.
  split; [done |]. split; [done |]. split; [done |].
  cbn [job_node]. by rewrite Htag.
Qed.

(** X4: the node [updateMap] resolves with renders the wrapper's prefix,
    then the content (the wrapper's [data], or the compiled text when the
    wrapper gives none), then the wrapper's suffix, when the wrapper returns
    an object; a missing prefix or suffix adds nothing. *)
Theorem object_wrapper_rendering p compiled prefix suffix data sourceMap job :
  updateMap p compiled (WObject prefix suffix data) sourceMap = Normal job ->
  SourceNode.toString (job_node job)
  = default "" prefix
    +:+ (if truthy_opt data then default "" data else compiled)
    +:+ default "" suffix.
Proof.
  intros Hjob.
  destruct (updateMap_inversion _ _ _ _ _ Hjob)
    as (n & pre & suf & Htext & _ & [= -> ->] & ->).
  rewrite toString_setSourceContent, toString_set_source.
  cbv zeta. rewrite toString_add_opt, toString_prepend_opt.
  rewrite toString_set_isIdentity, Htext. cbn [wrapper_content].
  by rewrite append_assoc.
Qed.

(** X5: the node the promise of [updateMap] resolves with, in whatever
    order the reads settle, carries the tags the bundler reads:
    [isIdentity] is true exactly when no source map was given (an empty
    string is one that was given, although the node is then built as an
    identity node), and [source] is the path. The content attached for the
    path is the content the node was built from, unless the map lists the
    path itself among its sources: then it is the content read for it.
    Without a source map nothing is read, the promise resolves with the node
    as it was built, and nothing else is attached. *)
Theorem updateMap_tags p compiled wrapped sourceMap job readFile order node' :
  updateMap p compiled wrapped sourceMap = Normal job ->
  order ≡ₚ job_reads job ->
  settle_reads readFile order (job_node job) = Some node' ->
  SourceNode.isIdentity node'
  = Some (match sourceMap with None => true | Some _ => false end)
  /\ SourceNode.source node' = Some p
  /\ SourceNode.sourceContents node' !! p
     = (if decide (p ∈ job_reads job) then readFile p
        else Some (wrapper_content compiled wrapped))
  /\ (sourceMap = None ->
        job_reads job = [] /\ node' = job_node job
        /\ SourceNode.sourceContents node'
           = {[ p := wrapper_content compiled wrapped ]}).
Proof.
  intros Hjob Hperm Hs.
  destruct (updateMap_inversion _ _ _ _ _ Hjob)
    as (n & pre & suf & Htext & Hid & _ & Hnode).
  destruct (settle_reads_text _ _ _ _ Hs) as (_ & Hi & Hsrc).
  pose proof (settle_reads_contents _ _ _ _ Hs p) as Hcontent.
  rewrite Hi, Hsrc, Hcontent. rewrite Hnode. cbv zeta.
  split; [| split; [| split]].
  - by destruct (truthy_opt suf), (truthy_opt pre).
  - by destruct (truthy_opt suf), (truthy_opt pre).
  - destruct (decide (p ∈ order)) as [Hin|Hin];
      destruct (decide (p ∈ job_reads job)) as [Hin'|Hin']; try done.
    + exfalso. apply Hin'. by rewrite <- Hperm.
    + exfalso. apply Hin. by rewrite Hperm.
    + cbn. by rewrite lookup_insert_eq.
  - intros ->.
    assert (job_reads job = []) as Hreads.
    { revert Hjob. unfold updateMap.
      destruct wrapped as [w|a b c]; cbn; by intros [= <-]. }
    rewrite Hreads in Hperm. apply Permutation_nil_r in Hperm. subst order.
    injection Hs as <-. split; [done |]. split; [done |].
    rewrite Hnode, (Hid eq_refl). cbv zeta.
    by destruct (truthy_opt suf), (truthy_opt pre).
Qed.

(** X6: a record that is not wrapped ([makeWrapper] returns the compiled
    text as it is) gets a node that renders exactly the compiled text. *)
Theorem unwrapped_renders_compiled c p compiled sourceMap job :
  c_isWrapped c = false ->
  updateMap p compiled (makeWrapper c compiled) sourceMap = Normal job ->
  SourceNode.toString (job_node job) = compiled.
Proof.
  unfold makeWrapper. intros -> Hjob.
  rewrite (updateMap_plain_rendered _ _ _ _ _ Hjob), indexOf_self.
  cbn [Z.ltb Z.compare].
  assert (slice compiled 0 0 = "") as ->.
  { apply strlen_zero. unfold strlen. rewrite length_slice.
    unfold relative_index. simpl. lia. }
  pose proof (strlen_nonneg compiled).
  rewrite slice_from_inside by lia.
  assert (str_drop (Z.to_nat (0 + strlen compiled)) compiled = "") as ->.
  { apply strlen_zero. unfold strlen. rewrite length_str_drop. lia. }
  by rewrite append_empty_r.
Qed.

End Composition.

Lemma object_wrapper_rendering_witness :
  exists job,
    updateMap (H := sample_externals) "a.js" "var x=1;"
      (WObject (Some "(function(){") (Some "})();") None) None = Normal job
    /\ SourceNode.toString (job_node job) = "(function(){var x=1;})();".
Proof.
  eexists. split; [reflexivity |].
  exact (object_wrapper_rendering (H := sample_externals) "a.js" "var x=1;"
           (Some "(function(){") (Some "})();") None None _ eq_refl).
Defined.

Lemma updateMap_tags_witness :
  exists job node',
    updateMap (H := sample_externals) "a.js" "var x=1;"
      (WString "var x=1;") (Some (MapObject sample_map)) = Normal job
    /\ settle_reads sample_readFile ["b.js"; "a.js"] (job_node job)
       = Some node'
    /\ SourceNode.isIdentity node' = Some false
    /\ SourceNode.source node' = Some "a.js"
    /\ SourceNode.sourceContents node' !! "a.js" = Some "a = 1".
Proof.
  do 2 eexists. split; [reflexivity |]. split; [by vm_compute |].
  assert (["b.js"; "a.js"] ≡ₚ ["a.js"; "b.js"]) as Hperm
    by apply Permutation_swap.
  destruct (updateMap_tags (H := sample_externals) "a.js" "var x=1;"
              (WString "var x=1;") (Some (MapObject sample_map)) _
              sample_readFile ["b.js"; "a.js"] _ eq_refl Hperm
              ltac:(by vm_compute))
    as (Hi & Hsrc & Hc & _).
  exact (conj Hi (conj Hsrc Hc)).
Defined.

Lemma unwrapped_renders_compiled_witness :
  exists job,
    c_isWrapped (SourceFile.compile stylesheet) = false
    /\ updateMap (H := sample_externals) "app/a.css" "a{color:red}"
         (makeWrapper (SourceFile.compile stylesheet) "a{color:red}") None
       = Normal job
    /\ SourceNode.toString (job_node job) = "a{color:red}".
Proof.
  eexists. split; [reflexivity |]. split; [reflexivity |].
  exact (unwrapped_renders_compiled (H := sample_externals)
           (SourceFile.compile stylesheet) "app/a.css" "a{color:red}" None _
           eq_refl eq_refl).
Defined.

(** ** The reads of a map in object form *)
Section ObjectMapReads.
Context `{Externals}.


End ObjectMapReads.


(** ** [updateCache] with a result *)
Section UpdateCacheResult.
Context `{Externals}.

Lemma updateCache_result now p r wrap cache :
  frozen cache = false ->
  updateCache now p None (Some r) wrap cache
  = (match updateMap p (pr_compiled r) (wrap (pr_compiled r))
             (pr_sourceMap r) with
     | Normal job => Normal (ReturnsUndefined job)
     | Throw e => Throw e
     end,
     set_data (Some (pr_compiled r))
       (set_compilationTime (Some now)
          (set_source (pr_source r)
             (set_dependencies (pr_dependencies r)
                (set_error None cache))))).
Proof.
  intros Hf. unfold updateCache, mbind, M_bind, assign.
  repeat (cbn; rewrite ?Hf).
  by destruct (updateMap _ _ _ _).
Qed.

(** X8: when the pipeline resolves with a result, a record that is not
    frozen takes over the result's source, compiled text and dependencies,
    has no error and a new compilation time, and keeps its path and flags.
    Its node is still the one of the compile before: the new node is stored
    only when the promise of [updateMap] resolves, by [store_node]. *)
Theorem result_updates_all_but_node now c r cache :
  frozen cache = false ->
  let after := (compile_settled now c (Fulfilled (Some r)) cache).2 in
  error after = None /\ data after = Some (pr_compiled r)
  /\ dependencies after = pr_dependencies r
  /\ SourceFile.source after = pr_source r
  /\ compilationTime after = Some now
  /\ node after = node cache
  /\ path after = path cache /\ removed after = removed cache
  /\ disposed after = disposed cache /\ frozen after = false
  /\ (forall n, (store_node n after).1 = Normal tt
                /\ node (store_node n after).2 = Some n
                /\ data (store_node n after).2 = Some (pr_compiled r)).
Proof.
  intros Hf after.
  assert (after = set_data (Some (pr_compiled r))
                    (set_compilationTime (Some now)
                       (set_source (pr_source r)
                          (set_dependencies (pr_dependencies r)
                             (set_error None cache))))) as ->.
  { unfold after, compile_settled. rewrite updateCache_result by done.
    by destruct (updateMap _ _ _ _) as [job|e]. }
  cbn. do 10 (split; [done |]).
  intros n. unfold store_node, assign. cbn. by rewrite Hf.
Qed.

(** X9: when the result's source map is a string that [JSON.parse]
    rejects, the promise of [compile()] is rejected with the [SyntaxError]
    and no composition is started, but the record has already taken over
    the compiled text and has no error: the failure is not recorded on
    it. *)
Theorem unparsable_map_is_not_recorded now c r json cache :
  frozen cache = false ->
  pr_sourceMap r = Some (MapString json) ->
  truthy_string json = true ->
  JSON_parse (strip_sMapRe json) = None ->
  let res := compile_settled now c (Fulfilled (Some r)) cache in
  res.1 = (Rejected (SyntaxError "JSON.parse"), None)
  /\ error res.2 = None /\ data res.2 = Some (pr_compiled r)
  /\ node res.2 = node cache.
Proof.
  intros Hf Hmap Hjson Hparse res. unfold res, compile_settled.
  rewrite updateCache_result by done.
  assert (updateMap (replaceBackSlashes (c_path c)) (pr_compiled r)
            (makeWrapper c (pr_compiled r)) (pr_sourceMap r)
          = Throw (SyntaxError "JSON.parse")) as ->.
  { unfold updateMap. rewrite Hmap. cbn [truthy_map]. rewrite Hjson, Hparse.
    by destruct (makeWrapper c (pr_compiled r)). }
  done.
Qed.

End UpdateCacheResult.

Lemma result_updates_all_but_node_witness :
  let after := (compile_settled (H := sample_externals) 2000
                  (SourceFile.compile compiled_file)
                  (Fulfilled (Some {| pr_source := "y = 2";
                                      pr_compiled := "var y=2;";
                                      pr_dependencies := Some ["app/b.js"];
                                      pr_sourceMap := None |}))
                  compiled_file).2 in
  data after = Some "var y=2;"
  /\ node after = Some (identityNode "var x=1;" "a.js").
Proof.
  intros after.
  destruct (result_updates_all_but_node (H := sample_externals) 2000
              (SourceFile.compile compiled_file)
              {| pr_source := "y = 2"; pr_compiled := "var y=2;";
                 pr_dependencies := Some ["app/b.js"];
                 pr_sourceMap := None |} compiled_file eq_refl)
    as (_ & Hd & _ & _ & _ & Hn & _).
  exact (conj Hd Hn).
Defined.

Lemma unparsable_map_is_not_recorded_witness :
  let res := compile_settled (H := sample_externals) 2000
               (SourceFile.compile compiled_file)
               (Fulfilled (Some {| pr_source := "y = 2";
                                   pr_compiled := "var y=2;";
                                   pr_dependencies := None;
                                   pr_sourceMap := Some (MapString "{") |}))
               compiled_file in
  res.1 = (Rejected (SyntaxError "JSON.parse"), None)
  /\ error res.2 = None /\ data res.2 = Some "var y=2;"
  /\ node res.2 = node compiled_file.
Proof.
  exact (unparsable_map_is_not_recorded (H := sample_externals) 2000
           (SourceFile.compile compiled_file)
           {| pr_source := "y = 2"; pr_compiled := "var y=2;";
              pr_dependencies := None;
              pr_sourceMap := Some (MapString "{") |} "{" compiled_file
           eq_refl eq_refl eq_refl eq_refl).
Defined.

(** ** The statements of the list, one by one *)
Section Statements.
Context `{Externals}.
Variable cfg : Config.
Variable stack : nat.

(** [compile] for a path that is not compiling, as one state change. *)
Lemma compile_fresh w file f :
  heap w !! file = Some f -> frozen f = false -> path f ∉ compiling w ->
  compile file w
  = (Normal tt,
     set_inflight (inflight w ++ [(file, path f)])
       (set_trace (CallPipeline file (c_path (SourceFile.compile f))
                     :: trace w)
          (set_compiling ({[path f]} ∪ compiling w)
             (set_heap (<[file := set_removed false f]> (heap w)) w)))).
Proof.
  intros Hl Hf Hp.
  unfold compile, call_compile, mbind, M_bind, on_file, gets, assign, get,
    log, modify.
  rewrite Hl. cbn. rewrite lookup_insert_eq. cbn. rewrite Hf. cbn.
  rewrite bool_decide_false by done. cbn.
  rewrite !insert_insert_eq, lookup_insert_eq. cbn.
  by rewrite !insert_insert_eq.
Qed.

(** X10: [compile] on a record that is not frozen and whose path is not in
    the compiling set ends normally: the path joins the compiling set, the
    pipeline is called once, for the path the record was constructed with,
    that compile is pending with the record's current path, and [removed] is
    cleared. The timer is left alone: starting a compile does not reset
    it. *)
Theorem compile_starts w file f :
  heap w !! file = Some f -> frozen f = false -> path f ∉ compiling w ->
  let w' := (compile file w).2 in
  (compile file w).1 = Normal tt
  /\ compiling w' = {[path f]} ∪ compiling w
  /\ inflight w' = inflight w ++ [(file, path f)]
  /\ trace w' = CallPipeline file (c_path (SourceFile.compile f)) :: trace w
  /\ heap w' = <[file := set_removed false f]> (heap w)
  /\ timer w' = timer w /\ timeouts w' = timeouts w
  /\ files w' = files w /\ compiled w' = compiled w.
Proof.
  intros Hl Hf Hp. by rewrite (compile_fresh w file f Hl Hf Hp).
Qed.

(** X11: [compile] on a frozen record, that is a disposed one, throws a
    [TypeError] at its first assignment and leaves the state as it is,
    whether or not the record's path is in the compiling set. *)
Theorem compile_frozen w file f :
  heap w !! file = Some f -> frozen f = true ->
  compile file w
  = (Throw (TypeError "Cannot assign to read only property"), w).
Proof.
  intros Hl Hf. unfold compile, mbind, M_bind, on_file, gets, assign.
  rewrite Hl. cbn. rewrite lookup_insert_eq. cbn. rewrite Hf. cbn.
  rewrite insert_insert_eq, insert_id by done.
  by rewrite !set_heap_same.
Qed.

(** The first element for which the test holds, when all such elements are
    one and the same. *)
Lemma list_find_unique {A} (P : A -> Prop) `{!forall x, Decision (P x)}
    (l : list A) a :
  a ∈ l -> P a -> (forall x, x ∈ l -> P x -> x = a) ->
  snd <$> list_find P l = Some a.
Proof.
  intros Ha HP Huniq.
  destruct (list_find_elem_of P l a Ha HP) as [[i x] Hfind].
  rewrite Hfind. cbn. f_equal.
  apply list_find_Some in Hfind as (Hi & Hx & _).
  apply Huniq; [by eapply list_elem_of_lookup_2 | done].
Qed.

Lemma find_None w p :
  find w p = None <-> forall l, l ∈ files w -> has_path w p l = false.
Proof.
  unfold find. rewrite fmap_None, list_find_None, Forall_forall.
  split; intros Hall l Hl; specialize (Hall l Hl).
  - by destruct (has_path w p l).
  - rewrite Hall. by intros [].
Qed.

(** X12: [_add], when the vendor convention answers, appends a new record
    to the list: a record for the path, neither removed nor disposed, at a
    location that held no object. When no record had the path before,
    [find] then answers that record; every other object is as before. When
    the vendor convention is not a function, [_add] throws and adds
    nothing. *)
Theorem add_then_find p compiler linters isHelper w :
  (forall v, is_ cfg "vendor" p = Normal v ->
     let l := fresh (dom (heap w)) in
     let w' := (_add cfg p compiler linters isHelper w).2 in
     (_add cfg p compiler linters isHelper w).1 = Normal l
     /\ heap w !! l = None
     /\ files w' = files w ++ [l]
     /\ heap w' !! l
        = Some (SourceFile.new p compiler linters (moduleWrapper cfg)
                  isHelper v)
     /\ (forall l', l' ≠ l -> heap w' !! l' = heap w !! l')
     /\ (find w p = None -> find w' p = Some l))
  /\ (forall e, is_ cfg "vendor" p = Throw e ->
        _add cfg p compiler linters isHelper w = (Throw e, w)).
Proof.
  split.
  - intros v Hv l w'.
    assert (heap w !! l = None) as Hfresh.
    { apply not_elem_of_dom. apply is_fresh. }
    assert (w' = set_files (files w ++ [l])
                   (set_heap (<[l := SourceFile.new p compiler linters
                                        (moduleWrapper cfg) isHelper v]>
                                (heap w)) w)) as Hw'.
    { unfold w', _add, mbind, M_bind, lift, get, modify. by rewrite Hv. }
    split; [unfold _add, mbind, M_bind, lift, get, modify; by rewrite Hv |].
    split; [done |]. rewrite Hw'. cbn.
    split; [done |]. split; [by rewrite lookup_insert_eq |].
    split; [intros l' Hne; by rewrite lookup_insert_ne |].
    intros Hfind. rewrite find_None in Hfind. unfold find. cbn.
    apply (list_find_unique (fun l0 => has_path _ p l0)).
    + rewrite elem_of_app, list_elem_of_singleton. by right.
    + unfold has_path. cbn. rewrite lookup_insert_eq. cbn.
      by rewrite String.eqb_refl.
    + intros x Hx HP. destruct (decide (x = l)) as [|Hne]; [done |].
      apply elem_of_app in Hx as [Hx|Hx];
        [| by apply list_elem_of_singleton in Hx].
      specialize (Hfind x Hx). unfold has_path in *. cbn in HP.
      rewrite lookup_insert_ne in HP by done. by rewrite Hfind in HP.
  - intros e He. unfold _add, mbind, M_bind, lift. by rewrite He.
Qed.

(** *** Events *)

Lemma add_result p compiler linters isHelper w v :
  is_ cfg "vendor" p = Normal v ->
  _add cfg p compiler linters isHelper w
  = (Normal (fresh (dom (heap w))),
     set_files (files w ++ [fresh (dom (heap w))])
       (set_heap (<[fresh (dom (heap w))
                    := SourceFile.new p compiler linters (moduleWrapper cfg)
                         isHelper v]> (heap w)) w)).
Proof.
  intros Hv. unfold _add, mbind, M_bind, lift, get, modify. by rewrite Hv.
Qed.

(** The change event of a path that is not an asset. *)
Lemma change_source p compiler linters isHelper ignored w :
  call_isIgnored cfg stack p undefined = Normal ignored ->
  is_ cfg "assets" p = Normal false ->
  handle cfg stack (Change p compiler linters isHelper) w
  = (Normal tt,
     set_reads (reads w ++ [{| read_path := p; read_compiler := compiler;
                               read_linters := linters;
                               read_isHelper := isHelper;
                               read_ignored := ignored |}])
       (set_trace (CallUpdateCache p :: Debug ("Reading " +:+ p) :: trace w)
          w)).
Proof.
  intros Hign Has. cbn [handle]. unfold _change, mbind, M_bind, lift.
  by rewrite Hign, Has.
Qed.

(** The callback of the read that a change event registered last. *)
Lemma last_read_done r k w error :
  handle cfg stack (ReadDone (length (reads w)) error)
    (set_reads (reads w ++ [r]) (set_trace k w))
  = change_read cfg r error (set_reads (reads w) (set_trace k w)).
Proof.
  cbn [handle]. unfold mbind at 1, M_bind at 1, get at 1. cbn.
  rewrite list_lookup_middle by done.
  unfold mbind at 1, M_bind at 1, modify at 1. cbn.
  replace (delete (length (reads w)) (reads w ++ [r])) with (reads w); [done |].
  induction (reads w) as [|x l IH]; simpl; [done | by f_equal].
Qed.


(** X14: when the read of a changed file fails, the callback throws an
    [Error] built from the failure and does nothing else: no record is
    added or changed, no compile starts, no dependent is compiled and the
    timer is not reset; only the read is no longer pending. *)
Theorem read_failure_is_thrown i r e w :
  reads w !! i = Some r ->
  handle cfg stack (ReadDone i (Some e)) w
  = (Throw (PlainError (formatError "Reading" e)),
     set_reads (delete i (reads w)) w).
Proof.
  intros Hr. cbn [handle]. unfold mbind, M_bind, get, modify.
  by rewrite Hr.
Qed.

(** The cascade and [compile] add no record and remove none. *)
Lemma on_file_records {A} F D file (m : M SourceFile.t A) :
  preserves (fun w => files w = F /\ dom (heap w) = D) (on_file file m).
Proof.
  intros w [HF HD]. unfold on_file.
  destruct (heap w !! file) as [f|] eqn:Hl; [| done].
  destruct (m f) as [r f']. cbn. split; [done |].
  rewrite dom_insert_L, <- HD.
  apply elem_of_dom_2 in Hl. apply subseteq_union_1_L.
  by apply singleton_subseteq_l.
Qed.

Lemma compile_records F D file :
  preserves (fun w => files w = F /\ dom (heap w) = D) (compile file).
Proof.
  unfold compile.
  apply preserves_bind; [apply on_file_records | intros p].
  apply preserves_bind; [apply on_file_records | intros _].
  apply preserves_bind_get. intros w HI.
  case_bool_decide; [done |].
  apply preserves_bind; [by apply preserves_modify | intros _ | done].
  unfold call_compile.
  apply preserves_bind; [apply on_file_records | intros f].
  apply preserves_bind; [by apply preserves_modify | intros _].
  by apply preserves_modify.
Qed.

Lemma cascade_records F D p :
  preserves (fun w => files w = F /\ dom (heap w) = D)
    (compileDependencyParents p).
Proof.
  unfold compileDependencyParents. apply preserves_bind_get. intros w HI.
  destruct (Nat.eqb _ 0); [done |].
  apply preserves_bind; [by apply preserves_modify | intros _ | done].
  apply preserves_forEach. intros l _. apply compile_records.
Qed.

(** X15: a change event for an ignored path that is neither an asset nor a
    JSON file of a package, followed by the end of the read, adds no record
    and removes none, whatever compilers are registered for the path; the
    objects are the same ones. During the first build it changes nothing
    but the timer and the trace of the read. *)
Theorem ignored_change_adds_no_record p compiler linters isHelper w :
  call_isIgnored cfg stack p undefined = Normal true ->
  is_ cfg "assets" p = Normal false ->
  isNpmJSON p = false ->
  let w2 := step cfg stack (ReadDone (length (reads w)) None)
              (step cfg stack (Change p compiler linters isHelper) w) in
  files w2 = files w /\ dom (heap w2) = dom (heap w)
  /\ (initial w = true ->
        heap w2 = heap w /\ compiling w2 = compiling w
        /\ inflight w2 = inflight w
        /\ trace w2 = [CallUpdateCache p; Debug ("Reading " +:+ p)]
                      ++ trace w
        /\ timer_reset w w2).
Proof.
  intros Hign Has Hjson w2.
  unfold w2, step.
  rewrite (change_source _ _ _ _ true) by done. cbn [snd].
  rewrite last_read_done.
  unfold change_read, compile_changed. cbn [read_ignored read_compiler
    read_path read_linters read_isHelper negb andb].
  rewrite Hjson. cbn [orb].
  set (w1 := set_reads _ _).
  unfold mbind, M_bind, get, mret, M_ret. cbn beta iota zeta.
  change (initial w1) with (initial w).
  destruct (initial w) eqn:Hinit; cbn [negb].
  - unfold resetTimer, modify, timer_reset. cbn.
    split; [done |]. split; [done |]. intros _. by split_and!.
  - pose proof (cascade_records (files w) (dom (heap w)) p w1
                  (conj eq_refl eq_refl)) as Hrec.
    destruct (compileDependencyParents p w1) as [[[]|e] w'];
      cbn in *; destruct Hrec as [HF HD]; by split_and!.
Qed.

(** X16: the unlink of a path that is neither an asset nor ignored is a
    soft delete. The record [find] answers for the path, when it is not
    disposed, gets [removed] set and stays in the list; when no record has
    the path, or the record is disposed, nothing changes. In each case the
    timer is reset and that is all: the list, the compiling set and the
    pending compiles are as before. *)
Theorem unlink_marks_removed p w :
  call_isIgnored cfg stack p undefined = Normal false ->
  is_ cfg "assets" p = Normal false ->
  (forall l f, find w p = Some l -> heap w !! l = Some f ->
     disposed f = false -> frozen f = false ->
     _unlink cfg stack p w
     = (Normal tt,
        (resetTimer (set_heap (<[l := set_removed true f]> (heap w)) w)).2))
  /\ (find w p = None -> _unlink cfg stack p w = resetTimer w)
  /\ (forall l f, find w p = Some l -> heap w !! l = Some f ->
        disposed f = true -> _unlink cfg stack p w = resetTimer w).
Proof.
  intros Hign Has.
  unfold _unlink, mbind, M_bind, lift, get. rewrite Hign, Has.
  cbn beta iota zeta. split; [| split].
  - intros l f -> Hl Hd Hf. unfold is_disposed, on_file, assign.
    rewrite Hl, Hd. cbn. rewrite Hl. cbn. by rewrite Hf.
  - by intros ->.
  - intros l f -> Hl Hd. unfold is_disposed. by rewrite Hl, Hd.
Qed.

Lemma hasFiles_true_iff w :
  hasFiles w = true <-> compiling w ≠ ∅ \/ copying w ≠ ∅.
Proof.
  assert (forall X : gset string, 0 < Z.of_nat (size X) <-> X ≠ ∅) as Hs.
  { intros X. split.
    - intros Hs ->. rewrite size_empty in Hs. lia.
    - intros Hne. destruct (size X) eqn:E; [| lia].
      apply size_empty_inv, leibniz_equiv in E. done. }
  unfold hasFiles. by rewrite orb_true_iff, !Z.ltb_lt, !Hs.
Qed.

Lemma hasFiles_false w :
  hasFiles w = false -> compiling w = ∅ /\ copying w = ∅.
Proof.
  intros Hh.
  destruct (decide (compiling w = ∅)) as [Hc|Hc];
    destruct (decide (copying w = ∅)) as [Hp|Hp]; [done | | |];
    assert (hasFiles w = true) as Ht by (apply hasFiles_true_iff; tauto);
    congruence.
Qed.

(** X17: when the timeout fires, the disposed records are dropped from the
    list (and only they; the objects stay as they are). If a compile or a
    copy is still going on, nothing is emitted, the compiled-this-build map
    is kept and the timer is set again; otherwise [ready] is emitted, the
    map is emptied and no timeout is set. *)
Theorem timer_fired_ready_or_again w :
  let w' := (timer_fired w).2 in
  (timer_fired w).1 = Normal tt
  /\ (forall l, l ∈ files w' <-> l ∈ files w /\ is_disposed w l = false)
  /\ heap w' = heap w
  /\ (compiling w ≠ ∅ \/ copying w ≠ ∅ ->
        trace w' = trace w /\ compiled w' = compiled w /\ timer_reset w w')
  /\ (compiling w = ∅ -> copying w = ∅ ->
        trace w' = Emit "ready" None :: trace w /\ compiled w' = ∅
        /\ timer w' = timer w /\ timeouts w' = timeouts w).
Proof.
  pose proof (hasFiles_true_iff w) as Hhas.
  unfold timer_fired, mbind, M_bind, modify, get, emit, log, resetTimer,
    timer_reset.
  cbn beta iota zeta.
  change (hasFiles (set_files _ w)) with (hasFiles w).
  destruct (hasFiles w) eqn:Hh; cbn.
  - split; [done |]. split.
    { intros l. rewrite list_elem_of_filter, Is_true_true, negb_true_iff.
      tauto. }
    split; [done |]. split; [done |].
    intros Hc Hp. destruct (proj1 Hhas eq_refl); done.
  - split; [done |]. split.
    { intros l. rewrite list_elem_of_filter, Is_true_true, negb_true_iff.
      tauto. }
    split; [done |]. split; [| done].
    intros Hne. apply Hhas in Hne. congruence.
Qed.

(** X18: [copy] has no guard like the one of [compile]: a second [copy] of
    an asset whose copy is pending starts another copy. When the first of
    the two settles, the path leaves the copying set although the second is
    still pending. *)
Theorem copy_is_not_coalesced asset a w :
  asset_heap w !! asset = Some a ->
  let p := asset_path a in
  let w2 := ((copy asset;; copy asset) w).2 in
  let w3 := step cfg stack (CopySettled (length (copies w))) w2 in
  copies w2 = copies w ++ [(asset, p); (asset, p)]
  /\ trace w2 = CallCopy asset :: CallCopy asset :: trace w
  /\ copying w2 = {[p]} ∪ copying w
  /\ copies w3 = copies w ++ [(asset, p)]
  /\ (p ∉ copying w3).
Proof.
  intros Ha p w2 w3.
  assert (w2 = set_copies (copies w ++ [(asset, p); (asset, p)])
                 (set_trace (CallCopy asset :: CallCopy asset :: trace w)
                    (set_copying ({[p]} ∪ copying w) w))) as Hw2.
  { unfold w2, copy, mbind, M_bind, get, modify, log. cbn beta iota zeta.
    rewrite Ha. cbn. rewrite Ha. cbn. fold p.
    rewrite <- app_assoc. cbn.
    by rewrite (assoc_L (∪)), union_idemp_L. }
  unfold w3, step. rewrite Hw2. cbn.
  split; [done |]. split; [done |]. split; [done |].
  unfold mbind, M_bind, get, modify, resetCopy, resetTimer. cbn.
  rewrite lookup_app_r by done. rewrite Nat.sub_diag. cbn.
  replace (delete (length (copies w)) (copies w ++ [(asset, p); (asset, p)]))
    with (copies w ++ [(asset, p)]).
  - unfold mbind, M_bind, modify. cbn.
    split; [done |]. rewrite elem_of_difference, elem_of_singleton. tauto.
  - symmetry. apply delete_middle.
Qed.

(** X19: [getAssetErrors] answers [null] exactly when no asset of the list
    has an error, and never an empty list; otherwise it answers the
    formatted errors of the assets that have one. *)
Theorem getAssetErrors_null_or_errors format w :
  (getAssetErrors format w = None <->
   forall l a, l ∈ assets w -> asset_heap w !! l = Some a ->
               asset_error a = None)
  /\ (forall errs, getAssetErrors format w = Some errs ->
        errs ≠ []
        /\ forall s, s ∈ errs <->
             exists l a e, l ∈ assets w /\ asset_heap w !! l = Some a
                           /\ asset_error a = Some e
                           /\ s = format e (asset_path a)).
Proof.
  unfold getAssetErrors.
  set (invalid := filter (fun l => has_error w l) (assets w)).
  assert (forall l, l ∈ invalid <->
            l ∈ assets w
            /\ exists a e, asset_heap w !! l = Some a
                           /\ asset_error a = Some e) as Hinv.
  { intros l. unfold invalid. rewrite list_elem_of_filter, Is_true_true.
    unfold has_error. split.
    - intros [Hl Hin]. split; [done |].
      destruct (asset_heap w !! l) as [a|]; [| done].
      apply bool_decide_eq_true in Hl as [e He]. by exists a, e.
    - intros [Hin (a & e & -> & He)]. split; [| done].
      apply bool_decide_eq_true. by rewrite He. }
  assert (forall s, s ∈ omap (format_asset format w) invalid <->
            exists l a e, l ∈ assets w /\ asset_heap w !! l = Some a
                          /\ asset_error a = Some e
                          /\ s = format e (asset_path a)) as Hformat.
  { intros s. rewrite list_elem_of_omap. split.
    - intros (l & Hl & Hs). apply Hinv in Hl as (Hin & a & e & Ha & He).
      exists l, a, e. unfold format_asset in Hs. rewrite Ha in Hs. cbn in Hs.
      rewrite He in Hs. cbn in Hs. by injection Hs as <-.
    - intros (l & a & e & Hin & Ha & He & ->). exists l. split.
      + apply Hinv. split; [done |]. by exists a, e.
      + unfold format_asset. rewrite Ha. cbn. by rewrite He. }
  destruct invalid as [|l0 invalid'] eqn:Hi.
  - cbn. split.
    + split; [| done]. intros _ l a Hin Ha.
      destruct (asset_error a) as [e|] eqn:He; [| done].
      assert (l ∈ []) as Hnil by (apply Hinv; split; [done |]; by exists a, e).
      by apply elem_of_nil in Hnil.
    + done.
  - replace (0 <? Z.of_nat (length (l0 :: invalid'))) with true
      by (symmetry; apply Z.ltb_lt; simpl; lia).
    split.
    + split; [done |]. intros Hall.
      assert (l0 ∈ l0 :: invalid') as Hl0 by left.
      apply Hinv in Hl0 as (Hin & a & e & Ha & He).
      rewrite (Hall l0 a Hin Ha) in He. done.
    + intros errs [= <-]. split; [| done].
      assert (l0 ∈ l0 :: invalid') as Hl0 by left.
      apply Hinv in Hl0 as (Hin & a & e & Ha & He).
      intros Hnil.
      apply (proj1 (elem_of_nil (format e (asset_path a)))).
      rewrite <- Hnil. apply Hformat. by exists l0, a, e.
Qed.

End Statements.

(** ** The timer, the [ready] event and the list of records *)
Section Scheduling.
Context `{Externals}.
Variable cfg : Config.
Variable stack : nat.

(** Anything written to the trace but the event [ready]. *)
Definition quiet (e : effect) : Prop := e ≠ Emit "ready" None.

(** A disposed record has the empty path. *)
Definition blank_if_disposed (f : SourceFile.t) : Prop :=
  disposed f = true -> path f = "".

(** The record [f] is [f0] as far as the list tells records apart: if [f]
    is not disposed, [f0] was not, and it has the path of [f0]. *)
Definition same_record (f0 f : SourceFile.t) : Prop :=
  (disposed f = false -> disposed f0 = false /\ path f = path f0)
  /\ blank_if_disposed f.

(** A statement of source_file.js that neither brings a disposed record
    back nor changes the path of a record unless it disposes it. *)
Definition keeps_path {A} (m : M SourceFile.t A) : Prop :=
  forall f0, preserves (same_record f0) m.

Record Sched (t0 : list effect) (w : World) : Prop := {
  (** since the trace was [t0], [ready] was not emitted *)
  sched_trace : exists k, trace w = k ++ t0 /\ Forall quiet k;
  (** a pending timeout is the one in [this.timer] *)
  sched_timer : timeouts w ⊆ match timer w with
                             | Some h => {[h]}
                             | None => ∅
                             end;
  (** the entries of the list are objects *)
  sched_files : forall l, l ∈ files w -> is_Some (heap w !! l);
  sched_nodup : NoDup (files w);
  sched_disposed : forall l f, heap w !! l = Some f -> blank_if_disposed f;
  (** two records of the list that are not disposed differ in their path *)
  sched_paths : forall l l' f f',
    l ∈ files w -> l' ∈ files w ->
    heap w !! l = Some f -> heap w !! l' = Some f' ->
    disposed f = false -> disposed f' = false -> path f = path f' -> l = l';
}.

(** *** The records *)

Lemma same_record_refl f : blank_if_disposed f -> same_record f f.
Proof. by split. Qed.

Lemma same_assign f0 set :
  (forall f, disposed (set f) = disposed f /\ path (set f) = path f) ->
  preserves (same_record f0) (assign set).
Proof.
  intros Hset f Hf. unfold assign. destruct (frozen f); cbn; [done |].
  destruct (Hset f) as [Hd Hp].
  unfold same_record, blank_if_disposed. by rewrite Hd, Hp.
Qed.

Lemma keeps_path_updateCache now p error result wrap :
  keeps_path (updateCache now p error result wrap).
Proof.
  intros f0. unfold updateCache.
  destruct error as [e|]; [| destruct result as [r|]];
    repeat first
      [ apply preserves_ret
      | apply preserves_throw
      | apply same_assign; by intros f
      | apply preserves_bind; [| intros _] ].
  destruct (updateMap _ _ _ _); [apply preserves_ret | apply preserves_throw].
Qed.

Lemma compile_settled_same now c outcome f :
  blank_if_disposed f -> same_record f (compile_settled now c outcome f).2.
Proof.
  intros Hb. apply same_record_refl in Hb. unfold compile_settled.
  destruct outcome as [d|e].
  - pose proof (keeps_path_updateCache now (replaceBackSlashes (c_path c))
                  None d (makeWrapper c) f f Hb) as Hs.
    destruct (updateCache _ _ _ _ _ f) as [[[|job]|e] f']; exact Hs.
  - pose proof (keeps_path_updateCache now (replaceBackSlashes (c_path c))
                  (Some e) None (makeWrapper c) f f Hb) as Hs.
    destruct (updateCache _ _ _ _ _ f) as [[[|job]|e'] f']; exact Hs.
Qed.

Lemma keeps_path_dispose : keeps_path dispose.
Proof.
  intros f0 f Hf. rewrite dispose_result.
  destruct (frozen f); [done |]. by split.
Qed.

(** *** The list *)

Lemma Sched_init : Sched [] init.
Proof.
  split; cbn.
  - by exists [].
  - done.
  - intros l Hl. by apply elem_of_nil in Hl.
  - constructor.
  - intros l f Hl. by rewrite lookup_empty in Hl.
  - intros l l' f f' Hl. by apply elem_of_nil in Hl.
Qed.

(** Statements that leave the trace, the timer, the list and the records
    alone. *)
Lemma Sched_frame t0 w w' :
  trace w' = trace w -> timer w' = timer w -> timeouts w' = timeouts w ->
  files w' = files w -> heap w' = heap w -> Sched t0 w -> Sched t0 w'.
Proof.
  intros Ht Hti Hto Hf Hh [? ? ? ? ? ?].
  split; rewrite ?Ht, ?Hti, ?Hto, ?Hf, ?Hh; done.
Qed.

(** The same, from the trace of the new state on. *)
Lemma Sched_state t0 w w' :
  timer w' = timer w -> timeouts w' = timeouts w ->
  files w' = files w -> heap w' = heap w -> Sched t0 w ->
  Sched (trace w') w'.
Proof.
  intros Hti Hto Hf Hh [_ ? ? ? ? ?].
  split; rewrite ?Hti, ?Hto, ?Hf, ?Hh; try done. by exists [].
Qed.

Lemma Sched_lift {A} t0 (c : completion A) : preserves (Sched t0) (lift c).
Proof. by intros w. Qed.

Lemma Sched_log t0 e : quiet e -> preserves (Sched t0) (log e).
Proof.
  intros Hq w [(k & Hk & Hqk) ? ? ? ? ?]. split; cbn; try done.
  exists (e :: k). rewrite Hk. split; [done | by constructor].
Qed.

Lemma Sched_resetTimer t0 : preserves (Sched t0) resetTimer.
Proof.
  apply preserves_modify. intros w [? Ht ? ? ? ?]. split; cbn; try done.
  intros h. rewrite elem_of_union, !elem_of_singleton.
  intros [Hh|Hh]; [| done]. exfalso.
  destruct (timer w) as [h0|].
  - apply elem_of_difference in Hh as [Hh Hne]. by apply Ht in Hh.
  - apply Ht in Hh. by apply not_elem_of_empty in Hh.
Qed.

(** One record is replaced by a record the list cannot tell from it. *)
Lemma Sched_update t0 w file f f' :
  Sched t0 w -> heap w !! file = Some f -> same_record f f' ->
  Sched t0 (set_heap (<[file := f']> (heap w)) w).
Proof.
  intros [Ht Hti Hf Hn Hb Hp] Hl Hs. split; cbn; [done | done | | done | |].
  - intros l Hin. rewrite lookup_insert. case_decide; [done | by apply Hf].
  - intros l g. rewrite lookup_insert. case_decide; [| by apply Hb].
    intros [= <-]. apply Hs.
  - assert (forall l g, <[file := f']> (heap w) !! l = Some g ->
              disposed g = false ->
              exists g0, heap w !! l = Some g0 /\ disposed g0 = false
                         /\ path g0 = path g) as Hback.
    { intros l g. rewrite lookup_insert. case_decide as Heq; [| by eauto].
      intros [= <-] Hd. subst l. destruct (proj1 Hs Hd) as [Hd0 Hp0]. eauto. }
    intros l l' g g' Hin Hin' Hg Hg' Hd Hd' Hpath.
    destruct (Hback _ _ Hg Hd) as (g0 & Hg0 & Hd0 & Hp0).
    destruct (Hback _ _ Hg' Hd') as (g0' & Hg0' & Hd0' & Hp0').
    apply (Hp l l' g0 g0'); try done. congruence.
Qed.

Lemma Sched_on_file {A} t0 file (m : M SourceFile.t A) :
  keeps_path m -> preserves (Sched t0) (on_file file m).
Proof.
  intros Hm w HI. unfold on_file.
  destruct (heap w !! file) as [f|] eqn:Hl; [| done].
  specialize (Hm f f (same_record_refl f (sched_disposed _ _ HI _ _ Hl))).
  destruct (m f) as [r f']. cbn in *.
  by apply (Sched_update t0 w file f f').
Qed.

Lemma Sched_compile t0 file : preserves (Sched t0) (compile file).
Proof.
  unfold compile. apply preserves_bind.
  { apply Sched_on_file. intros f0. apply preserves_gets. }
  intros p. apply preserves_bind.
  { apply Sched_on_file. intros f0. apply same_assign. by intros f. }
  intros _. apply preserves_bind_get. intros w HI.
  case_bool_decide as Hp; [by apply Sched_resetTimer |].
  apply preserves_bind; [| intros _ | done].
  { apply preserves_modify. intros w'. by apply Sched_frame. }
  unfold call_compile. apply preserves_bind.
  { apply Sched_on_file. intros f0. apply preserves_get. }
  intros f. apply preserves_bind; [by apply Sched_log | intros _].
  apply preserves_modify. intros w'. by apply Sched_frame.
Qed.

Lemma Sched_compileDependencyParents t0 p :
  preserves (Sched t0) (compileDependencyParents p).
Proof.
  unfold compileDependencyParents. apply preserves_bind_get. intros w HI.
  destruct (Nat.eqb _ 0); [done |].
  apply preserves_bind; [by apply Sched_log | | done].
  intros _. apply preserves_forEach. intros l _. apply Sched_compile.
Qed.

Lemma Sched_copy t0 asset : preserves (Sched t0) (copy asset).
Proof.
  unfold copy. apply preserves_bind_get. intros w HI.
  destruct (asset_heap w !! asset) as [a|]; [| done].
  revert w HI.
  repeat first
    [ by apply Sched_log
    | apply preserves_modify; intros w; by apply Sched_frame
    | apply preserves_bind; [| intros _] ].
Qed.

Lemma Sched_resetCopy t0 p : preserves (Sched t0) (resetCopy p).
Proof.
  unfold resetCopy.
  apply preserves_bind; [| intros _; apply Sched_resetTimer].
  apply preserves_modify. intros w. by apply Sched_frame.
Qed.

(** [_add] is called for a path that [find] gave no record for. *)
Lemma Sched_add t0 p compiler linters isHelper w :
  Sched t0 w -> find w p = None ->
  Sched t0 (_add cfg p compiler linters isHelper w).2.
Proof.
  intros [Ht Hti Hf Hn Hbl Hp] Hfind.
  destruct (is_ cfg "vendor" p) as [v|e] eqn:Hv.
  - rewrite (add_result cfg p compiler linters isHelper w v Hv). cbn.
    remember (fresh (dom (heap w))) as l eqn:Heql.
    assert (heap w !! l = None) as Hfresh.
    { subst l. apply not_elem_of_dom. apply is_fresh. }
    assert (l ∉ files w) as Hl.
    { intros Hin. destruct (Hf l Hin) as [f Hlf]. congruence. }
    rewrite find_None in Hfind.
    assert (forall b f, b ∈ files w -> heap w !! b = Some f ->
              path f ≠ p) as Hother.
    { intros b f Hb Hfb Hpath. specialize (Hfind b Hb).
      unfold has_path in Hfind. rewrite Hfb, Hpath in Hfind.
      by rewrite String.eqb_refl in Hfind. }
    split; cbn.
    + done.
    + done.
    + intros l'. rewrite elem_of_app, list_elem_of_singleton, lookup_insert.
      case_decide; [done |]. intros [Hin|Heq]; [by apply Hf | congruence].
    + apply NoDup_app. split; [done |]. split; [| apply NoDup_singleton].
      intros x Hx Hx'. by apply list_elem_of_singleton in Hx' as ->.
    + intros l' f. rewrite lookup_insert. case_decide; [| by apply Hbl].
      by intros [= <-].
    + intros a b f f'.
      rewrite !elem_of_app, !list_elem_of_singleton, !lookup_insert.
      destruct (decide (l = a)) as [Ha|Ha];
        destruct (decide (l = b)) as [Hb|Hb];
        intros Hin Hin' Hfa Hfb Hd Hd' Hpath.
      * congruence.
      * injection Hfa as <-. cbn in Hpath.
        destruct Hin' as [Hin'|Hin']; [| congruence].
        by destruct (Hother b f' Hin' Hfb).
      * injection Hfb as <-. cbn in Hpath.
        destruct Hin as [Hin|Hin]; [| congruence].
        by destruct (Hother a f Hin Hfa).
      * destruct Hin as [Hin|Hin]; [| congruence].
        destruct Hin' as [Hin'|Hin']; [| congruence].
        by apply (Hp a b f f').
  - unfold _add, mbind, M_bind, lift. rewrite Hv. by split.
Qed.

Lemma Sched_addAsset t0 p : preserves (Sched t0) (_addAsset p).
Proof.
  unfold _addAsset. apply preserves_bind_get. intros w HI.
  unfold mbind, M_bind, modify, mret, M_ret. cbn. revert HI.
  by apply Sched_frame.
Qed.

Lemma Sched_change t0 p compiler linters isHelper :
  preserves (Sched t0) (_change cfg stack p compiler linters isHelper).
Proof.
  unfold _change. apply preserves_bind; [apply Sched_lift |].
  intros ignored. apply preserves_bind; [apply Sched_lift |].
  intros [|].
  - destruct (negb ignored); [| apply preserves_ret].
    apply preserves_bind_get. intros w HI.
    apply preserves_bind; [| intros a; apply Sched_copy | done].
    destruct (findAsset w p); [apply preserves_ret | apply Sched_addAsset].
  - repeat first
      [ by apply Sched_log
      | apply preserves_modify; intros w; by apply Sched_frame
      | apply preserves_bind; [| intros _] ].
Qed.

Lemma Sched_change_read t0 r error :
  preserves (Sched t0) (change_read cfg r error).
Proof.
  unfold change_read. destruct error as [e|]; [apply preserves_throw |].
  apply preserves_bind.
  { unfold compile_changed. destruct (_ || _); [| apply preserves_ret].
    apply preserves_bind_get. intros w HI.
    destruct (find w (read_path r)) as [l|] eqn:Hfind.
    - apply preserves_bind;
        [apply preserves_ret | intros a; apply Sched_compile | done].
    - pose proof (Sched_add t0 (read_path r) (read_compiler r)
                    (read_linters r) (read_isHelper r) w HI Hfind) as Hadd.
      unfold mbind, M_bind.
      destruct (_add cfg _ _ _ _ w) as [[l|e] w1]; cbn in *; [| done].
      by apply Sched_compile. }
  intros _. apply preserves_bind_get. intros w HI.
  apply preserves_bind; [| intros _; apply Sched_resetTimer | done].
  destruct (negb (initial w)); [| apply preserves_ret].
  apply Sched_compileDependencyParents.
Qed.

Lemma Sched_unlink t0 p : preserves (Sched t0) (_unlink cfg stack p).
Proof.
  unfold _unlink. apply preserves_bind; [apply Sched_lift |].
  intros ignored. apply preserves_bind; [apply Sched_lift |].
  intros isAsset.
  apply preserves_bind; [| intros _; apply Sched_resetTimer].
  destruct isAsset.
  - destruct (negb ignored); [| apply preserves_ret].
    apply preserves_modify. intros w. by apply Sched_frame.
  - destruct ignored; [apply Sched_compileDependencyParents |].
    apply preserves_bind_get. intros w HI.
    destruct (find w p) as [file|]; [| done].
    destruct (negb (is_disposed w file)); [| done].
    apply Sched_on_file; [| done]. intros f0. apply same_assign. by intros f.
Qed.

Lemma Sched_compile_then t0 p settlement :
  preserves (Sched t0) (compile_then p settlement).
Proof.
  assert (preserves (Sched t0) (reset p)) as Hreset.
  { unfold reset.
    apply preserves_bind; [| intros _; apply Sched_resetTimer].
    apply preserves_modify. intros w. by apply Sched_frame. }
  unfold compile_then, mark_compiled.
  apply preserves_bind; [by destruct settlement | intros _].
  repeat first
    [ by apply Sched_log
    | apply preserves_modify; intros w; by apply Sched_frame
    | apply preserves_bind; [| intros _] ].
Qed.

Lemma Sched_file_compile_settled t0 file now outcome :
  preserves (Sched t0) (file_compile_settled file now outcome).
Proof.
  intros w HI. unfold file_compile_settled.
  destruct (heap w !! file) as [f|] eqn:Hl; [| done].
  pose proof (compile_settled_same now (SourceFile.compile f) outcome f
                (sched_disposed _ _ HI _ _ Hl)) as Hsame.
  destruct (compile_settled now (SourceFile.compile f) outcome f)
    as [[settlement job] f']. cbn in *.
  pose proof (Sched_update t0 w file f f' HI Hl Hsame) as HI'.
  revert HI'. by apply Sched_frame.
Qed.

(** Every event but the firing of a timeout. *)
Lemma Sched_handle t0 ev :
  (forall h, ev ≠ TimeoutFired h) ->
  preserves (Sched t0) (handle cfg stack ev).
Proof.
  intros Hev.
  destruct ev as [p compiler linters isHelper|p|i error|i now outcome|i|h
                 |i order readFile|file|]; simpl.
  - apply Sched_change.
  - apply Sched_unlink.
  - apply preserves_bind_get. intros w HI.
    destruct (reads w !! i) as [r|]; [| done].
    apply preserves_bind; [| intros _; apply Sched_change_read | done].
    apply preserves_modify. intros w'. by apply Sched_frame.
  - apply preserves_bind_get. intros w HI.
    destruct (inflight w !! i) as [[file p]|]; [| done].
    apply preserves_bind; [| intros _ | done].
    { apply preserves_modify. intros w'. by apply Sched_frame. }
    apply preserves_bind; [apply Sched_file_compile_settled |].
    intros settlement. apply Sched_compile_then.
  - apply preserves_bind_get. intros w HI.
    destruct (copies w !! i) as [[a p]|]; [| done].
    apply preserves_bind; [| intros _; apply Sched_resetCopy | done].
    apply preserves_modify. intros w'. by apply Sched_frame.
  - by destruct (Hev h).
  - apply preserves_bind_get. intros w HI.
    destruct (jobs w !! i) as [[file job]|]; [| done].
    case_bool_decide; [| done].
    apply preserves_bind; [| intros _ | done].
    { apply preserves_modify. intros w'. by apply Sched_frame. }
    destruct (settle_reads _ _ _); [| apply preserves_ret].
    apply Sched_on_file. intros f0. apply same_assign. by intros f.
  - apply Sched_on_file, keeps_path_dispose.
  - apply preserves_modify. intros w. by apply Sched_frame.
Qed.

(** The firing of a timeout, step by step. *)
Lemma timeout_fired h w :
  step cfg stack (TimeoutFired h) w
  = if bool_decide (h ∈ timeouts w)
    then
      let w1 := set_files (filter (fun l => negb (is_disposed w l)) (files w))
                  (set_timeouts (timeouts w ∖ {[h]}) w) in
      if hasFiles w then (resetTimer w1).2
      else set_compiled ∅ (set_trace (Emit "ready" None :: trace w) w1)
    else w.
Proof.
  unfold step. cbn [handle]. unfold mbind, M_bind, get. cbn.
  case_bool_decide; [| done].
  unfold timer_fired, mbind, M_bind, modify, get, emit, log. cbn.
  change (hasFiles (set_files _ _)) with (hasFiles w).
  by destruct (hasFiles w).
Qed.

Lemma Sched_timeout h w :
  Sched (trace w) w ->
  Sched (trace (step cfg stack (TimeoutFired h) w))
    (step cfg stack (TimeoutFired h) w).
Proof.
  intros HI. rewrite timeout_fired. case_bool_decide as Hh; [| done].
  set (w1 := set_files _ _).
  assert (Sched (trace w) w1) as HI1.
  { destruct HI as [Ht Hti Hf Hn Hb Hp]. split; cbn.
    - done.
    - intros x Hx. apply elem_of_difference in Hx as [Hx _]. by apply Hti.
    - intros l Hl. apply list_elem_of_filter in Hl as [_ Hl]. by apply Hf.
    - by apply NoDup_filter.
    - done.
    - intros l l' f f' Hl Hl'.
      apply list_elem_of_filter in Hl as [_ Hl].
      apply list_elem_of_filter in Hl' as [_ Hl']. by apply Hp. }
  cbn zeta. destruct (hasFiles w).
  - pose proof (Sched_resetTimer (trace w) w1 HI1) as HI2.
    revert HI2. by apply Sched_state.
  - revert HI1. by apply Sched_state.
Qed.

Lemma is_timeout ev :
  (exists h, ev = TimeoutFired h) \/ (forall h, ev ≠ TimeoutFired h).
Proof. destruct ev; try (by right); left; by eexists. Qed.

Lemma Sched_step ev w :
  Sched (trace w) w -> Sched (trace (step cfg stack ev w)) (step cfg stack ev w).
Proof.
  intros HI.
  destruct (is_timeout ev) as [[h ->]|Hne].
  - by apply Sched_timeout.
  - pose proof (Sched_handle (trace w) ev Hne w HI) as HI'.
    revert HI'. by apply Sched_state.
Qed.

Lemma reachable_Sched w : reachable cfg stack w -> Sched (trace w) w.
Proof.
  induction 1 as [|ev w Hw IH]; [apply Sched_init |].
  by apply Sched_step.
Qed.

(** A pending timeout is the one in [this.timer], and the only one. *)
Lemma one_timer t0 w h :
  Sched t0 w -> h ∈ timeouts w -> timer w = Some h /\ timeouts w = {[h]}.
Proof.
  intros [_ Ht _ _ _ _] Hh. pose proof (Ht h Hh) as Hh'.
  destruct (timer w) as [h0|]; [| by apply not_elem_of_empty in Hh'].
  apply elem_of_singleton in Hh' as ->. split; [done |].
  apply set_eq. intros x. rewrite elem_of_singleton. split.
  - intros Hx. apply Ht in Hx. by apply elem_of_singleton in Hx.
  - by intros ->.
Qed.

(** X20: in every state the list can reach, the list has no record twice,
    its entries are objects, and no two of its records that are not disposed
    have the same path. So [find] answers each such record for its path,
    when that is not the empty path of the disposed ones. *)
Theorem one_live_record_per_path w :
  reachable cfg stack w ->
  NoDup (files w)
  /\ (forall l, l ∈ files w -> is_Some (heap w !! l))
  /\ (forall l l' f f',
        l ∈ files w -> l' ∈ files w ->
        heap w !! l = Some f -> heap w !! l' = Some f' ->
        disposed f = false -> disposed f' = false -> path f = path f' ->
        l = l')
  /\ (forall l f,
        l ∈ files w -> heap w !! l = Some f ->
        disposed f = false -> path f ≠ "" ->
        find w (path f) = Some l).
Proof.
  intros Hw. destruct (reachable_Sched w Hw) as [_ _ Hf Hn Hb Hp].
  split; [done |]. split; [done |]. split; [done |].
  intros l f Hl Hlf Hd Hne. unfold find.
  apply (list_find_unique (fun l0 => has_path w (path f) l0)).
  - done.
  - unfold has_path. rewrite Hlf. by rewrite String.eqb_refl.
  - intros x Hx HP. unfold has_path in HP.
    destruct (heap w !! x) as [g|] eqn:Hg; [| done].
    apply Is_true_true, String.eqb_eq in HP.
    destruct (disposed g) eqn:Hdg.
    + destruct Hne. rewrite <- HP. by apply (Hb x g).
    + by apply (Hp x l g f).
Qed.

(** X21: in every state the list can reach, at most one timeout is
    pending, and it is the one the list holds in [timer]: every reset of the
    timer cancels the timeout set before. *)
Theorem one_timeout_pending w h :
  reachable cfg stack w -> h ∈ timeouts w ->
  timer w = Some h /\ timeouts w = {[h]}.
Proof.
  intros Hw Hh. exact (one_timer (trace w) w h (reachable_Sched w Hw) Hh).
Qed.

(** X22: an event only adds to the trace, and in a state the list can
    reach the only event that emits [ready] is the firing of the timeout
    the list holds in [timer], at a moment when nothing is compiling and
    nothing is being copied; [ready] is then all it adds, and the
    compiled-this-build map is emptied. *)
Theorem ready_only_when_idle ev w :
  reachable cfg stack w ->
  exists k,
    trace (step cfg stack ev w) = k ++ trace w
    /\ (Emit "ready" None ∈ k ->
        k = [Emit "ready" None]
        /\ (exists h, ev = TimeoutFired h /\ timer w = Some h)
        /\ compiling w = ∅ /\ copying w = ∅
        /\ compiled (step cfg stack ev w) = ∅).
Proof.
  intros Hw. pose proof (reachable_Sched w Hw) as HI.
  destruct (is_timeout ev) as [[h ->]|Hne].
  - rewrite timeout_fired. case_bool_decide as Hh.
    + destruct (one_timer _ w h HI Hh) as [Ht _].
      destruct (hasFiles w) eqn:Hhas; cbn.
      * exists []. split; [done |]. intros Hin. by apply elem_of_nil in Hin.
      * exists [Emit "ready" None]. split; [done |]. intros _.
        destruct (hasFiles_false w Hhas) as [Hc Hp].
        split; [done |]. split; [by exists h |]. by split_and!.
    + exists []. split; [done |]. intros Hin. by apply elem_of_nil in Hin.
  - destruct (Sched_handle (trace w) ev Hne w HI) as [(k & Hk & Hq) _ _ _ _ _].
    exists k. split; [done |]. intros Hin.
    rewrite Forall_forall in Hq. by destruct (Hq _ Hin).
Qed.

End Scheduling.

(** ** The cascade, and the events that run it *)

(** The records the cascade for [p] selects, in the order of the list. *)
Definition cascade_parents (w : World) (p : string) : list loc :=
  filter (fun l => is_parent w p l) (files w).




Section Dependents.
Context `{Externals}.
Variable cfg : Config.
Variable stack : nat.











End Dependents.

(** ** Assets, and one build from the start *)
Section Builds.
Context `{Externals}.
Variable cfg : Config.
Variable stack : nat.

Lemma findAsset_Some w p a :
  findAsset w p = Some a ->
  a ∈ assets w /\ exists r, asset_heap w !! a = Some r /\ asset_path r = p.
Proof.
  unfold findAsset. intros Hfind.
  apply fmap_Some in Hfind as ([i x] & Hfind & ->).
  apply list_find_Some in Hfind as (Hi & Hx & _). cbn.
  split; [by eapply list_elem_of_lookup_2 |].
  unfold asset_has_path in Hx.
  destruct (asset_heap w !! x) as [r|]; [| done].
  exists r. split; [done |]. by apply String.eqb_eq, Is_true_true.
Qed.

(** X23: a change event for a path that is an asset by convention does
    nothing at all when the path is ignored, not even reset the timer.
    Otherwise it starts a copy of the asset [findAsset] answers for the
    path, or, when there is none, of a new asset for the path that it
    appends to the list; the path joins the copying set. It does not reset
    the timer either, and touches neither the records nor the reads. *)
Theorem change_asset_copies p compiler linters isHelper w :
  is_ cfg "assets" p = Normal true ->
  (call_isIgnored cfg stack p undefined = Normal true ->
     step cfg stack (Change p compiler linters isHelper) w = w)
  /\ (call_isIgnored cfg stack p undefined = Normal false ->
      let w' := step cfg stack (Change p compiler linters isHelper) w in
      exists a,
        asset_path <$> (asset_heap w' !! a) = Some p
        /\ (forall a0, findAsset w p = Some a0 ->
              a = a0 /\ assets w' = assets w
              /\ asset_heap w' = asset_heap w)
        /\ (findAsset w p = None ->
              asset_heap w !! a = None /\ assets w' = assets w ++ [a])
        /\ copying w' = {[p]} ∪ copying w
        /\ copies w' = copies w ++ [(a, p)]
        /\ trace w' = CallCopy a :: trace w
        /\ timer w' = timer w /\ timeouts w' = timeouts w
        /\ files w' = files w /\ heap w' = heap w /\ reads w' = reads w).
Proof.
  intros Has. split.
  - intros Hign. unfold step. cbn [handle].
    unfold _change, mbind, M_bind, lift. by rewrite Hign, Has.
  - intros Hign w'. unfold w', step. cbn [handle].
    unfold _change, mbind, M_bind, lift, get. rewrite Hign, Has.
    cbn [negb]. cbn beta iota zeta.
    destruct (findAsset w p) as [a|] eqn:Hfind.
    + destruct (findAsset_Some _ _ _ Hfind) as (Hin & r & Hr & Hp).
      exists a. unfold mret, M_ret, copy, mbind, M_bind, get, modify, log.
      cbn. rewrite Hr. cbn. rewrite Hr, Hp. cbn.
      split; [by rewrite Hp |]. split; [by intros a0 [= <-] |]. by split_and!.
    + exists (fresh (dom (asset_heap w))).
      unfold _addAsset, copy, mret, M_ret, mbind, M_bind, get, modify, log.
      cbn. rewrite lookup_insert_eq. cbn. rewrite lookup_insert_eq. cbn.
      split; [done |]. split; [done |].
      split; [| by split_and!].
      intros _. split; [| done]. apply not_elem_of_dom, is_fresh.
Qed.



End Builds.

(** ** The statements at concrete states *)

Lemma compile_starts_witness :
  let w : World := a_depends_on_x in
  exists f,
    heap w !! 0%nat = Some f /\ frozen f = false /\ (path f ∉ compiling w)
    /\ (compile 0%nat w).1 = Normal tt
    /\ compiling (compile 0%nat w).2 = {[path f]} ∪ compiling w
    /\ inflight (compile 0%nat w).2 = inflight w ++ [(0%nat, path f)].
Proof.
  intros w.
  let r := eval vm_compute in
      (default compiled_file (heap a_depends_on_x !! 0%nat)) in
  pose (f := r).
  assert (heap w !! 0%nat = Some f) as Hl by (vm_compute; reflexivity).
  assert (path f ∉ compiling w) as Hp
    by (apply (bool_decide_unpack _); vm_compute; exact I).
  destruct (compile_starts w 0%nat f Hl eq_refl Hp) as (Hr & Hc & Hi & _).
  exists f. exact (conj Hl (conj eq_refl (conj Hp (conj Hr (conj Hc Hi))))).
Defined.

Lemma compile_frozen_witness :
  let w : World := a_disposed in
  exists f,
    heap w !! 0%nat = Some f /\ frozen f = true
    /\ compile 0%nat w
       = (Throw (TypeError "Cannot assign to read only property"), w).
Proof.
  intros w.
  let r := eval vm_compute in
      (default compiled_file (heap a_disposed !! 0%nat)) in
  pose (f := r).
  assert (heap w !! 0%nat = Some f) as Hl by (vm_compute; reflexivity).
  exists f.
  exact (conj Hl (conj eq_refl (compile_frozen w 0%nat f Hl eq_refl))).
Defined.


Lemma read_failure_is_thrown_witness :
  let w : World := reading_a in
  let r : Read := {| read_path := "app/a.js"; read_compiler := Some [js_plugin];
              read_linters := []; read_isHelper := false;
              read_ignored := false |} in
  let e : exn := PlainError "ENOENT" in
  reads w !! 0%nat = Some r
  /\ handle (H := sample_externals) sample_cfg sample_stack
       (ReadDone 0 (Some e)) w
     = (Throw (PlainError (formatError (Externals := sample_externals)
                             "Reading" e)),
        set_reads (delete 0%nat (reads w)) w).
Proof.
  intros w r e.
  assert (reads w !! 0%nat = Some r) as Hr by (vm_compute; reflexivity).
  exact (conj Hr (read_failure_is_thrown (H := sample_externals)
                    sample_cfg sample_stack 0%nat r e w Hr)).
Defined.

Lemma ignored_change_adds_no_record_witness :
  let p : string := "tmp/x.scss" in
  let w : World := a_depends_on_x in
  let w2 := step (H := sample_externals) sample_cfg sample_stack
              (ReadDone (length (reads w)) None)
              (step (H := sample_externals) sample_cfg sample_stack
                 (Change p (Some [css_plugin]) [] false) w) in
  call_isIgnored (H := sample_externals) sample_cfg sample_stack p undefined
  = Normal true
  /\ is_ sample_cfg "assets" p = Normal false
  /\ isNpmJSON (Externals := sample_externals) p = false
  /\ files w2 = files w /\ dom (heap w2) = dom (heap w).
Proof.
  intros p w w2.
  assert (call_isIgnored (H := sample_externals) sample_cfg sample_stack p
            undefined = Normal true)
    as Hign by (vm_compute; reflexivity).
  assert (is_ sample_cfg "assets" p = Normal false) as Has
    by (vm_compute; reflexivity).
  assert (isNpmJSON (Externals := sample_externals) p = false) as Hjson by (vm_compute; reflexivity).
  destruct (ignored_change_adds_no_record (H := sample_externals)
              sample_cfg sample_stack p (Some [css_plugin]) [] false w
              Hign Has Hjson) as (Hf & Hd & _).
  exact (conj Hign (conj Has (conj Hjson (conj Hf Hd)))).
Defined.

Lemma unlink_marks_removed_witness :
  let p : string := "app/a.js" in
  let w : World := a_depends_on_x in
  exists f,
    call_isIgnored (H := sample_externals) sample_cfg sample_stack p undefined
    = Normal false
    /\ is_ sample_cfg "assets" p = Normal false
    /\ find w p = Some 0%nat /\ heap w !! 0%nat = Some f
    /\ disposed f = false /\ frozen f = false
    /\ _unlink (H := sample_externals) sample_cfg sample_stack p w
       = (Normal tt,
          (resetTimer
             (set_heap (<[0%nat := set_removed true f]> (heap w)) w)).2).
Proof.
  intros p w.
  let r := eval vm_compute in
      (default compiled_file (heap a_depends_on_x !! 0%nat)) in
  pose (f := r).
  assert (call_isIgnored (H := sample_externals) sample_cfg sample_stack p
            undefined = Normal false) as Hign by (vm_compute; reflexivity).
  assert (is_ sample_cfg "assets" p = Normal false) as Has
    by (vm_compute; reflexivity).
  assert (find w p = Some 0%nat) as Hfind by (vm_compute; reflexivity).
  assert (heap w !! 0%nat = Some f) as Hl by (vm_compute; reflexivity).
  exists f.
  exact (conj Hign (conj Has (conj Hfind (conj Hl (conj eq_refl (conj eq_refl
           (proj1 (unlink_marks_removed (H := sample_externals)
                     sample_cfg sample_stack p w Hign Has)
              0%nat f Hfind Hl eq_refl eq_refl))))))).
Defined.

Lemma copy_is_not_coalesced_witness :
  let w : World := two_assets in
  let a : Asset := {| asset_path := "app/assets/a.png"; asset_error := None |} in
  let p := asset_path a in
  let w2 := ((copy 0%nat;; copy 0%nat) w).2 in
  let w3 := step (H := sample_externals) sample_cfg sample_stack
              (CopySettled (length (copies w))) w2 in
  asset_heap w !! 0%nat = Some a
  /\ copies w3 = copies w ++ [(0%nat, p)]
  /\ (p ∉ copying w3).
Proof.
  intros w a p w2 w3.
  assert (asset_heap w !! 0%nat = Some a) as Ha by (vm_compute; reflexivity).
  destruct (copy_is_not_coalesced (H := sample_externals)
              sample_cfg sample_stack 0%nat a w Ha) as (_ & _ & _ & Hc & Hp).
  exact (conj Ha (conj Hc Hp)).
Defined.

Lemma one_live_record_per_path_witness :
  let w : World := a_depends_on_x in
  exists f,
    reachable (H := sample_externals) sample_cfg sample_stack w
    /\ (0%nat ∈ files w) /\ heap w !! 0%nat = Some f
    /\ disposed f = false /\ path f = "app/a.js"
    /\ NoDup (files w)
    /\ find w (path f) = Some 0%nat.
Proof.
  intros w.
  let r := eval vm_compute in
      (default compiled_file (heap a_depends_on_x !! 0%nat)) in
  pose (f := r).
  assert (reachable (H := sample_externals) sample_cfg sample_stack w) as Hw
    by apply reachable_run.
  assert (0%nat ∈ files w) as Hin
    by (apply (bool_decide_unpack _); vm_compute; exact I).
  assert (heap w !! 0%nat = Some f) as Hl by (vm_compute; reflexivity).
  assert (path f ≠ "") as Hne by discriminate.
  destruct (one_live_record_per_path (H := sample_externals)
              sample_cfg sample_stack w Hw) as (Hn & _ & _ & Hfind).
  exists f.
  exact (conj Hw (conj Hin (conj Hl (conj eq_refl (conj eq_refl (conj Hn
           (Hfind 0%nat f Hin Hl eq_refl Hne))))))).
Defined.

Lemma one_timeout_pending_witness :
  let w : World := run a_failed in
  reachable (H := sample_externals) sample_cfg sample_stack w
  /\ (1%nat ∈ timeouts w)
  /\ timer w = Some 1%nat /\ timeouts w = {[1%nat]}.
Proof.
  intros w.
  assert (reachable (H := sample_externals) sample_cfg sample_stack w) as Hw
    by apply reachable_run.
  assert (1%nat ∈ timeouts w) as Hh
    by (apply (bool_decide_unpack _); vm_compute; exact I).
  exact (conj Hw (conj Hh
           (one_timeout_pending (H := sample_externals)
              sample_cfg sample_stack w 1%nat Hw Hh))).
Defined.

Lemma ready_only_when_idle_witness :
  let w : World := run a_failed in
  reachable (H := sample_externals) sample_cfg sample_stack w
  /\ exists k,
       trace (step (H := sample_externals) sample_cfg sample_stack
                (TimeoutFired 1) w) = k ++ trace w
       /\ (Emit "ready" None ∈ k ->
           k = [Emit "ready" None]
           /\ (exists h, TimeoutFired 1 = TimeoutFired h /\ timer w = Some h)
           /\ compiling w = ∅ /\ copying w = ∅
           /\ compiled (step (H := sample_externals) sample_cfg sample_stack
                          (TimeoutFired 1) w) = ∅).
Proof.
  intros w.
  assert (reachable (H := sample_externals) sample_cfg sample_stack w) as Hw
    by apply reachable_run.
  exact (conj Hw (ready_only_when_idle (H := sample_externals)
                    sample_cfg sample_stack (TimeoutFired 1) w Hw)).
Defined.

Lemma change_asset_copies_witness :
  let p : string := "app/assets/a.png" in
  let w : World := two_assets in
  let w' := step (H := sample_externals) sample_cfg sample_stack
              (Change p None [] false) w in
  is_ sample_cfg "assets" p = Normal true
  /\ call_isIgnored (H := sample_externals) sample_cfg sample_stack p undefined
     = Normal false
  /\ findAsset w p = Some 0%nat
  /\ assets w' = assets w
  /\ copying w' = {[p]} ∪ copying w
  /\ copies w' = copies w ++ [(0%nat, p)].
Proof.
  intros p w w'.
  assert (is_ sample_cfg "assets" p = Normal true) as Has
    by (vm_compute; reflexivity).
  assert (call_isIgnored (H := sample_externals) sample_cfg sample_stack p
            undefined = Normal false) as Hign by (vm_compute; reflexivity).
  assert (findAsset w p = Some 0%nat) as Hfind by (vm_compute; reflexivity).
  destruct (proj2 (change_asset_copies (H := sample_externals)
                     sample_cfg sample_stack p None [] false w Has) Hign)
    as (a & _ & Hfound & _ & Hcopying & Hcopies & _).
  destruct (Hfound 0%nat Hfind) as (Ha & Hassets & _).
  exact (conj Has (conj Hign (conj Hfind (conj Hassets (conj Hcopying
           (eq_ind a (fun x => copies w' = copies w ++ [(x, p)])
              Hcopies 0%nat Ha)))))).
Defined.


(** C8, on the code: [app/a.js] and the file with the path [constructor]
    are in the list, neither is disposed, both depend on [tmp/x.scss], and
    nothing is marked compiled. The cascade for [tmp/x.scss] selects and
    compiles [app/a.js] only: [constructor] reads as truthy on the
    [compiled] object, which inherits it. *)
Theorem cascade_skips_inherited_names :
  let w := constructor_depends_on_x in
  let after := (compileDependencyParents "tmp/x.scss" w).2 in
  files w = [0%nat; 1%nat]
  /\ path <$> heap w !! 0%nat = Some "app/a.js"
  /\ path <$> heap w !! 1%nat = Some "constructor"
  /\ disposed <$> heap w !! 0%nat = Some false
  /\ disposed <$> heap w !! 1%nat = Some false
  /\ dependencies <$> heap w !! 0%nat = Some (Some ["tmp/x.scss"])
  /\ dependencies <$> heap w !! 1%nat = Some (Some ["tmp/x.scss"])
  /\ compiled w !! "app/a.js" = None
  /\ compiled w !! "constructor" = None
  /\ inflight w = []
  /\ cascade_parents w "tmp/x.scss" = [0%nat]
  /\ inflight after = [(0%nat, "app/a.js")]
  /\ bool_decide ("constructor" ∈ compiling after) = false.
Proof. by vm_compute. Qed.

